(** * vision-arena: the ray-casting kernel of [arena.py]

    A shallow embedding of the class [Arena] of [src/arena.py]: the pose
    setters, the ray fan, the ray-circle intersection and the assembly of
    the visual field.

    Numbers.  The program computes with IEEE doubles through numpy.  The
    embedding computes with the real numbers of the Standard Library:
    [+], [*], [/], [sqrt], [sin], [cos], [atan] are the exact operations,
    and rounding is not modelled.  The two places where the program relies
    on values that are not real numbers are kept explicit:
    - the slope [np.tan(ray)] is unbounded where [cos ray] vanishes, and
      the guard [np.abs(m) > 1e10] holds there ([Np.tan], [Np.steep]);
    - the quotient [y / x] of numpy is an infinity when [x] is zero and
      [y] is not, and [np.arctan] of an infinity is a right angle
      ([Np.divide], [Np.arctan]).

    Scope of the exact arithmetic.  The general branch of
    [_get_circle_intersection] evaluates [Bhalf**2 - A*C], a difference of
    terms that grow with the fourth power of the slope.  In doubles this
    difference loses its digits for steep rays below the guard, and for
    rays that graze the wall from a position next to it; the exact value
    computed here is then not what the program returns.  The statements
    about the points of the general branch are therefore made for
    [gentle] rays (slope at most 1 in magnitude) from [well_inside]
    positions (at most half-way from the centre to the wall), or from the
    centre, where the double evaluation agrees with the exact one up to
    rounding; the degenerate branch involves no such difference.  A
    negative zero of numpy is not distinguished from zero. *)

From Stdlib Require Import Reals Lra Lia List Bool Arith Psatz.
Import ListNotations.
Open Scope R_scope.

(** ** numpy and Python numerics over the reals *)

Module Np.

(** A numpy double, seen from the reals: a finite value, one of the two
    infinities, or not-a-number. *)
Inductive float : Type :=
| Fin (v : R)
| PInf
| NInf
| NaN.

(** [np.sign]. *)
Definition sign (x : R) : R :=
  if Rlt_dec x 0 then -1 else if Rlt_dec 0 x then 1 else 0.

(** [np.tan]: the tangent, unbounded at the poles of the real function. *)
Definition tan (r : R) : float :=
  if Req_dec_T (cos r) 0
  then (if Rlt_dec 0 (sin r) then PInf else NInf)
  else Fin (sin r / cos r).

(** [np.abs(m) > bound], for a positive [bound]; a comparison with
    not-a-number is false. *)
Definition steep (m : float) (bound : R) : bool :=
  match m with
  | Fin v => if Rlt_dec bound (Rabs v) then true else false
  | PInf | NInf => true
  | NaN => false
  end.

(** The value of a finite double. *)
Definition value (m : float) : R :=
  match m with Fin v => v | _ => 0 end.

(** [y / x] on doubles given by reals: division by zero yields an
    infinity with the sign of the numerator, and [0 / 0] is not-a-number.
    The reals have one zero: for a denominator [-0.0] numpy returns the
    opposite infinity, which this definition does not show. *)
Definition divide (y x : R) : float :=
  if Req_dec_T x 0
  then (if Rlt_dec 0 y then PInf else if Rlt_dec y 0 then NInf else NaN)
  else Fin (y / x).

(** [np.arctan]. *)
Definition arctan (q : float) : float :=
  match q with
  | Fin v => Fin (atan v)
  | PInf => Fin (PI / 2)
  | NInf => Fin (- (PI / 2))
  | NaN => NaN
  end.

(** [a + d] where [d] is finite. *)
Definition add (a : float) (d : R) : float :=
  match a with
  | Fin v => Fin (v + d)
  | other => other
  end.

(** The floor of a real number. *)
Definition floor (x : R) : Z := Int_part x.

(** Python's and numpy's [v % d] on finite values: the remainder of the
    floored division, which has the sign of [d]. *)
Definition fmod (v d : R) : R := v - IZR (floor (v / d)) * d.

(** [np.remainder], the [a % d] of arrays; the remainder of an infinity is
    not-a-number. *)
Definition remainder (a : float) (d : R) : float :=
  match a with
  | Fin v => Fin (fmod v d)
  | _ => NaN
  end.

(** [np.pi * (x < 0)]: the boolean counts as 1 or 0. *)
Definition pi_if_neg (x : R) : R :=
  PI * (if Rlt_dec x 0 then 1 else 0).

(** [y[-1] = stop]: overwrite the last entry of a non-empty list. *)
Fixpoint set_last (y : list R) (stop : R) : list R :=
  match y with
  | [] => []
  | [_] => [stop]
  | v :: rest => v :: set_last rest stop
  end.

(** [np.linspace(start, stop, num)] with its default [endpoint=True],
    after numpy's [function_base.linspace]:
<<
    div = num - 1
    y = arange(0, num)
    delta = stop - start
    if div > 0:
        step = delta / div
        if step == 0: y = y / div; y = y * delta
        else:         y = y * step
    else:
        y = y * delta
    y += start
    if num > 1: y[-1] = stop
>> *)
Definition linspace (start stop : R) (num : nat) : list R :=
  let div := (num - 1)%nat in
  let y := map INR (seq 0 num) in
  let delta := stop - start in
  let y :=
    if (0 <? div)%nat then
      let step := delta / INR div in
      if Req_dec_T step 0
      then map (fun v => v / INR div * delta) y
      else map (fun v => v * step) y
    else map (fun v => v * delta) y in
  let y := map (fun v => v + start) y in
  if (1 <? num)%nat then set_last y stop else y.

End Np.

(** ** The arena *)

(** The error of the position setter:
    [ValueError("Position outside unit circle")]. *)
Inductive exn : Type :=
| ValueError_outside_unit_circle.

Section ArenaModel.

(** The colours of the wall are opaque to the arena. *)
Context {Color : Type}.

(** The attributes of an [Arena] object. *)
Record Arena : Type := mkArena {
  colorfunc : list Np.float -> list Color;
  visual_res : nat;
  visual_breadth : R;
  _pos : R * R;
  _phi : R;
  vf_xy : list (R * R);
  vf_angles : list Np.float;
  vf_colors : list Color
}.

(** *** Methods as state transformers that may raise *)

Definition M (A : Type) : Type := Arena -> (exn + A) * Arena.

Definition ret {A} (x : A) : M A := fun self => (inr x, self).

Definition bind {A B} (c : M A) (k : A -> M B) : M B :=
  fun self =>
    match c self with
    | (inl e, self') => (inl e, self')
    | (inr x, self') => k x self'
    end.

Definition raise {A} (e : exn) : M A := fun self => (inl e, self).

Definition get : M Arena := fun self => (inr self, self).

Definition modify (f : Arena -> Arena) : M unit :=
  fun self => (inr tt, f self).

Definition exec {A} (c : M A) (self : Arena) : Arena := snd (c self).

Definition outcome {A} (c : M A) (self : Arena) : exn + A := fst (c self).

Notation "c ;; k" := (bind c (fun _ => k))
  (at level 61, right associativity).
Notation "x <- c ;; k" := (bind c (fun x => k))
  (at level 61, c at next level, right associativity).

(** Attribute assignments. *)
Definition set_pos (p : R * R) (self : Arena) : Arena :=
  mkArena (colorfunc self) (visual_res self) (visual_breadth self)
          p (_phi self) (vf_xy self) (vf_angles self) (vf_colors self).

Definition set_phi (phi : R) (self : Arena) : Arena :=
  mkArena (colorfunc self) (visual_res self) (visual_breadth self)
          (_pos self) phi (vf_xy self) (vf_angles self) (vf_colors self).

Definition set_vf_xy (v : list (R * R)) (self : Arena) : Arena :=
  mkArena (colorfunc self) (visual_res self) (visual_breadth self)
          (_pos self) (_phi self) v (vf_angles self) (vf_colors self).

Definition set_vf_angles (v : list Np.float) (self : Arena) : Arena :=
  mkArena (colorfunc self) (visual_res self) (visual_breadth self)
          (_pos self) (_phi self) (vf_xy self) v (vf_colors self).

Definition set_vf_colors (v : list Color) (self : Arena) : Arena :=
  mkArena (colorfunc self) (visual_res self) (visual_breadth self)
          (_pos self) (_phi self) (vf_xy self) (vf_angles self) v.

(** *** [_get_rays] *)

Definition _get_rays (self : Arena) : list R :=
  let rng := Np.linspace (- visual_breadth self) (visual_breadth self)
                         (visual_res self) in
  map (fun v => _phi self + v) rng.

(** *** [_get_circle_intersection] *)

Definition _get_circle_intersection (self : Arena) (ray : R) : R * R :=
  let '(x0, y0) := _pos self in
  let sgn := Np.sign (cos ray) in
  let m := Np.tan ray in
  if Np.steep m 1e10 then
    let solY := Np.sign (sin ray) * sqrt (1 - x0 ^ 2) in
    (x0, solY)
  else
    (* the slope is finite on this branch *)
    let m := Np.value m in
    let A := 1 + m ^ 2 in
    let Bhalf := m * y0 - m ^ 2 * x0 in
    let C := y0 ^ 2 - 2 * m * y0 * x0 + m ^ 2 * x0 ^ 2 - 1 in
    let solX := (- Bhalf + sgn * sqrt (Bhalf ^ 2 - A * C)) / A in
    let solY := y0 + m * (solX - x0) in
    (solX, solY).

(** *** [update_vf] *)

(** [inters[i] = v]: numpy raises [IndexError] out of range; the loop of
    [update_vf] only writes indices below [len(inters)]. *)
Fixpoint set_row (inters : list (R * R)) (i : nat) (v : R * R)
  : list (R * R) :=
  match inters, i with
  | [], _ => []
  | _ :: rest, O => v :: rest
  | w :: rest, S j => w :: set_row rest j v
  end.

(** [enumerate]. *)
Definition enumerate {A} (l : list A) : list (nat * A) :=
  combine (seq 0 (length l)) l.

(** Element-wise binary operation of two arrays of the same length. *)
Definition zip_with {A B C} (f : A -> B -> C) (l : list A) (r : list B)
  : list C :=
  map (fun ab => f (fst ab) (snd ab)) (combine l r).

(** The rays of [update_vf] (line 44 repeats the body of [_get_rays]). *)
Definition update_vf_rays (self : Arena) : list R :=
  map (fun v => _phi self + v)
      (Np.linspace (- visual_breadth self) (visual_breadth self)
                   (visual_res self)).

(** The loop of lines 46-48; [np.empty] leaves the rows unspecified, and
    every row is overwritten. *)
Definition update_vf_inters (self : Arena) (rays : list R)
  : list (R * R) :=
  let inters := repeat (0, 0) (length rays) in
  fold_left
    (fun inters ir => set_row inters (fst ir)
                        (_get_circle_intersection self (snd ir)))
    (enumerate rays) inters.

(** Line 51:
    [np.arctan(inters[:, 1]/inters[:, 0]) + np.pi*(inters[:, 0] < 0)]. *)
Definition wall_angles (inters : list (R * R)) : list Np.float :=
  let ys := map snd inters in
  let xs := map fst inters in
  zip_with Np.add
    (map Np.arctan (zip_with Np.divide ys xs))
    (map Np.pi_if_neg xs).

Definition update_vf : M unit :=
  self <- get ;;
  let rays := update_vf_rays self in
  let inters := update_vf_inters self rays in
  modify (set_vf_xy inters) ;;
  let vf_angles0 := wall_angles inters in
  modify (set_vf_angles
            (map (fun a => Np.remainder a (2 * PI)) (rev vf_angles0))) ;;
  self <- get ;;
  modify (set_vf_colors (colorfunc self (vf_angles self))).

(** *** [__init__] *)

Definition __init__ (color_function : list Np.float -> list Color)
           (visual_breadth : R) (visual_resolution : nat) : Arena :=
  let self :=
    mkArena color_function visual_resolution visual_breadth
            (0, 0) 0 [] [] [] in
  exec update_vf self.

(** *** The properties [pos] and [phi] *)

Definition pos_getter (self : Arena) : R * R := _pos self.

Definition pos_setter (new_pos : R * R) : M unit :=
  let '(x, y) := new_pos in
  if Rlt_dec 1 (x ^ 2 + y ^ 2)
  then raise ValueError_outside_unit_circle
  else modify (set_pos new_pos) ;; update_vf.

Definition phi_getter (self : Arena) : R := _phi self.

Definition phi_setter (new_phi : R) : M unit :=
  modify (set_phi (Np.fmod new_phi (2 * PI))) ;; update_vf.

End ArenaModel.

Arguments Arena : clear implicits.
Arguments M : clear implicits.

(** The wall angle of one intersection point, as line 51 computes it
    element-wise. *)
Definition wall_angle (p : R * R) : Np.float :=
  Np.add (Np.arctan (Np.divide (snd p) (fst p))) (Np.pi_if_neg (fst p)).

(** The three sequences that [update_vf] stores, as functions of the other
    attributes. *)
Definition vf_xy_of {Color} (self : Arena Color) : list (R * R) :=
  map (_get_circle_intersection self) (_get_rays self).

Definition vf_angles_of {Color} (self : Arena Color) : list Np.float :=
  map (fun a => Np.remainder a (2 * PI))
      (rev (map wall_angle (vf_xy_of self))).

(** The closed unit disk, the admissible positions. *)
Definition in_disk (p : R * R) : Prop := fst p ^ 2 + snd p ^ 2 <= 1.

(** The unit circle, the wall. *)
Definition on_wall (p : R * R) : Prop := fst p ^ 2 + snd p ^ 2 = 1.

(** The point [p] lies on the ray that leaves [o] at the angle [r]. *)
Definition forward (o : R * R) (r : R) (p : R * R) : Prop :=
  exists t : R,
    0 <= t /\ fst p - fst o = t * cos r /\ snd p - snd o = t * sin r.

(** A wall colour function for concrete runs: one marker per quadrant of
    the wall, and a marker for an angle that is not a number. *)
Definition quadrant (a : Np.float) : nat :=
  match a with
  | Np.Fin v =>
      if Rlt_dec v (PI / 2) then 0
      else if Rlt_dec v PI then 1
      else if Rlt_dec v (3 * (PI / 2)) then 2 else 3
  | _ => 4
  end%nat.

Definition quadrants (angles : list Np.float) : list nat :=
  map quadrant angles.

(** Concrete arenas and rays for the runs below: an arena with a single
    ray, an arena with the fan of the documented scenario, a ray whose
    slope is twice the threshold of line 31, and the single-ray arena
    turned towards that ray. *)
Definition narrow : Arena nat := __init__ quadrants 0 1.

Definition scenario : Arena nat := __init__ quadrants (PI / 4) 3.

Definition steep_ray : R := atan 2e10.

Definition narrow_steep : Arena nat := exec (phi_setter steep_ray) narrow.

(** An arena with a single ray and a visual breadth of one radian. *)
Definition one_eyed : Arena nat := __init__ quadrants 1 1.

(** The ray fan in the words of the specification (section 4.2): the
    angles [phi - b + i * (2 b) / (n - 1)] for [i] from [0] to [n - 1]. *)
Definition spec_ray_fan (phi b : R) (n : nat) : list R :=
  map (fun i => phi - b + INR i * (2 * b) / INR (n - 1)) (seq 0 n).

(** The three sequences of the visual field have one entry per ray. *)
Definition vf_sized {Color} (self : Arena Color) : Prop :=
  length (vf_xy self) = visual_res self /\
  length (vf_angles self) = visual_res self /\
  length (vf_colors self) = visual_res self.

(** The cached visual field is the one of the current pose. *)
Definition vf_current {Color} (self : Arena Color) : Prop :=
  vf_xy self = vf_xy_of self /\
  vf_angles self = vf_angles_of self /\
  vf_colors self = colorfunc self (vf_angles_of self).

(** A colour function that returns one colour per angle. *)
Definition aligned {Color} (f : list Np.float -> list Color) : Prop :=
  forall angles, length (f angles) = length angles.

(** ** The life of an arena *)

(** The states an [Arena] object built by [Arena(f, b, n)] passes through:
    the state after [__init__], and the state after an assignment to
    [pos] (whether it raises or not) or to [phi] in such a state. *)
Inductive reachable {Color} (f : list Np.float -> list Color)
          (b : R) (n : nat) : Arena Color -> Prop :=
| reach_init : reachable f b n (__init__ f b n)
| reach_pos (self : Arena Color) (new_pos : R * R) :
    reachable f b n self ->
    reachable f b n (exec (pos_setter new_pos) self)
| reach_phi (self : Arena Color) (new_phi : R) :
    reachable f b n self ->
    reachable f b n (exec (phi_setter new_phi) self).

(** A ray whose slope is at most 1 in magnitude: at most 45 degrees off
    the x axis, to either side and in either sense. *)
Definition gentle (r : R) : Prop := cos r <> 0 /\ Rabs (tan r) <= 1.

(** A position at most half-way from the centre to the wall. *)
Definition well_inside (p : R * R) : Prop := fst p ^ 2 + snd p ^ 2 <= 1 / 4.

(** The mirror image of a point in the x axis. *)
Definition mirror (p : R * R) : R * R := (fst p, - snd p).

(** ** [plot_arena] *)

(** The calls that [plot_arena] makes on the axes [ax], in the order of
    the calls; the axes are the log of these calls. *)
Inductive draw {Color : Type} : Type :=
| set_aspect_equal
| add_patch_circle (centre : R * R) (radius : R)
| plot_line (xs ys : list R)
| plot_marker (x y : R)
| scatter (xs ys : list R) (c : list Color).

Arguments draw : clear implicits.

(** The error of [np.linspace] for a negative number of samples. *)
Inductive plot_exn : Type :=
| ValueError_negative_samples.

(** [plot_arena(self, ax, walls)], lines 83-99.  [walls] is [Some w] for
    an [int] and [None] for any other object; the result is the log of the
    calls on [ax] and the way the method ends. *)
Definition plot_arena {Color} (self : Arena Color) (walls : option Z)
  : list (draw Color) * (plot_exn + unit) :=
  let ax := [set_aspect_equal; add_patch_circle (0, 0) 0.99] in
  let ax :=
    ax ++ map (fun inters =>
                 plot_line [fst (pos_getter self); fst inters]
                           [snd (pos_getter self); snd inters])
              (vf_xy self) in
  let ax :=
    ax ++ [plot_marker (fst (pos_getter self)) (snd (pos_getter self))] in
  match walls with
  | Some w =>
      if (w <? 0)%Z then (ax, inl ValueError_negative_samples)
      else
        let wvector := Np.linspace 0 (2 * PI) (Z.to_nat w) in
        let wcolors := colorfunc self (map Np.Fin wvector) in
        (ax ++ [scatter (map cos wvector) (map sin wvector) wcolors],
         inr tt)
  | None => (ax, inr tt)
  end.

(** The sight lines among the calls on the axes. *)
Definition sight_lines {Color} (ax : list (draw Color))
  : list (list R * list R) :=
  flat_map (fun d => match d with
                     | plot_line xs ys => [(xs, ys)]
                     | _ => []
                     end) ax.

(** * Properties *)

(** ** Facts about the numerics *)

Section Numerics.

Lemma fmod_range (v d : R) : 0 < d -> 0 <= Np.fmod v d < d.
Proof.
  intros Hd. unfold Np.fmod, Np.floor.
  destruct (base_Int_part (v / d)) as [Hlo Hhi].
  set (k := IZR (Int_part (v / d))) in *.
  assert (Hv : v = v / d * d) by (field; lra).
  split.
  - assert (k * d <= v / d * d) by (apply Rmult_le_compat_r; lra). lra.
  - assert (v / d * d < (k + 1) * d) by (apply Rmult_lt_compat_r; lra). lra.
Qed.

Lemma fmod_congruent (v d : R) : exists k : Z, Np.fmod v d = v - IZR k * d.
Proof. exists (Np.floor (v / d)). reflexivity. Qed.

(** The remainder of a value already in [[0, d)] is the value. *)
Lemma fmod_small (v d : R) : 0 <= v < d -> Np.fmod v d = v.
Proof.
  intros [Hlo Hhi]. unfold Np.fmod, Np.floor.
  assert (Hd : 0 < d) by lra.
  assert (Hq : 0 <= v / d < 1).
  { split.
    - apply Rmult_le_pos; [lra | left; apply Rinv_0_lt_compat; lra].
    - apply Rmult_lt_reg_r with d; [lra |].
      replace (v / d * d) with v by (field; lra). lra. }
  destruct (base_Int_part (v / d)) as [H1 H2].
  assert (Hk : Int_part (v / d) = 0%Z).
  { assert (Ha : (-1 < Int_part (v / d))%Z) by (apply lt_IZR; lra).
    assert (Hb : (Int_part (v / d) < 1)%Z) by (apply lt_IZR; lra).
    lia. }
  rewrite Hk. lra.
Qed.

(** Shifting by a multiple of the modulus does not change the remainder. *)
Lemma fmod_shift (v d : R) (k : Z) :
  0 < d -> 0 <= v + IZR k * d < d -> Np.fmod v d = v + IZR k * d.
Proof.
  intros Hd [Hlo Hhi]. unfold Np.fmod, Np.floor.
  destruct (base_Int_part (v / d)) as [H1 H2].
  assert (Hv : v = v / d * d) by (field; lra).
  assert (Hk : Int_part (v / d) = (- k)%Z).
  { set (q := v / d) in *.
    assert (Hq1 : - IZR k <= q).
    { apply Rmult_le_reg_r with d; [lra |]. lra. }
    assert (Hq2 : q < - IZR k + 1).
    { apply Rmult_lt_reg_r with d; [lra |]. lra. }
    assert (Ha : (- k - 1 < Int_part q)%Z).
    { apply lt_IZR. rewrite minus_IZR, opp_IZR. lra. }
    assert (Hb : (Int_part q < - k + 1)%Z).
    { apply lt_IZR. rewrite plus_IZR, opp_IZR. lra. }
    lia. }
  rewrite Hk, opp_IZR. lra.
Qed.

Lemma sign_sqr (x : R) : x <> 0 -> Np.sign x * Np.sign x = 1.
Proof.
  intros Hx. unfold Np.sign.
  destruct (Rlt_dec x 0); [lra |].
  destruct (Rlt_dec 0 x); lra.
Qed.

Lemma sign_mult_abs (x : R) : Np.sign x * x = Rabs x.
Proof.
  unfold Np.sign.
  destruct (Rlt_dec x 0).
  - rewrite Rabs_left by assumption. lra.
  - destruct (Rlt_dec 0 x).
    + rewrite Rabs_right by lra. lra.
    + assert (x = 0) by lra. subst. rewrite Rabs_R0. lra.
Qed.

End Numerics.

(** ** Facts about [np.linspace] *)

Section Linspace.

Lemma set_last_length (y : list R) (stop : R) :
  length (Np.set_last y stop) = length y.
Proof.
  induction y as [| v rest IH]; [reflexivity |].
  destruct rest as [| w rest']; [reflexivity |].
  change (S (length (Np.set_last (w :: rest') stop)) = S (length (w :: rest'))).
  now rewrite IH.
Qed.

Lemma set_last_snoc (y : list R) (v stop : R) :
  Np.set_last (y ++ [v]) stop = y ++ [stop].
Proof.
  induction y as [| w rest IH]; [reflexivity |].
  change ((w :: rest) ++ [v]) with (w :: (rest ++ [v])).
  destruct (rest ++ [v]) as [| u tl] eqn:E.
  - destruct rest; discriminate.
  - change (w :: Np.set_last (u :: tl) stop = (w :: rest) ++ [stop]).
    now rewrite IH.
Qed.

Lemma linspace_length (start stop : R) (num : nat) :
  length (Np.linspace start stop num) = num.
Proof.
  unfold Np.linspace.
  destruct (1 <? num)%nat; [rewrite set_last_length |];
    destruct (0 <? num - 1)%nat;
    try destruct (Req_dec_T _ _);
    now rewrite !length_map, length_seq.
Qed.

(** A single sample is the start of the interval. *)
Lemma linspace_one (start stop : R) :
  Np.linspace start stop 1 = [start].
Proof.
  unfold Np.linspace. simpl. f_equal. lra.
Qed.

(** Two or more samples are evenly spaced from [start] to [stop]. *)
Lemma linspace_even (start stop : R) (num : nat) :
  (2 <= num)%nat ->
  Np.linspace start stop num =
  map (fun i => start + INR i * ((stop - start) / INR (num - 1)))
      (seq 0 num).
Proof.
  intros Hn. unfold Np.linspace.
  assert (Hdiv : (0 <? num - 1)%nat = true) by (apply Nat.ltb_lt; lia).
  assert (Hnum : (1 <? num)%nat = true) by (apply Nat.ltb_lt; lia).
  rewrite Hdiv, Hnum.
  assert (Hd : INR (num - 1) <> 0) by (apply not_0_INR; lia).
  set (step := (stop - start) / INR (num - 1)).
  assert (Hy :
    map (fun v => v + start)
        (if Req_dec_T step 0
         then map (fun v => v / INR (num - 1) * (stop - start))
                  (map INR (seq 0 num))
         else map (fun v => v * step) (map INR (seq 0 num)))
    = map (fun i => start + INR i * step) (seq 0 num)).
  { destruct (Req_dec_T step 0) as [Hz | Hnz];
      rewrite !map_map; apply map_ext; intros i.
    - rewrite Hz. unfold step in Hz.
      assert (Hdelta : stop - start = 0).
      { apply Rmult_eq_reg_r with (/ INR (num - 1)).
        - unfold Rdiv in Hz. rewrite Hz. ring.
        - now apply Rinv_neq_0_compat. }
      rewrite Hdelta. ring.
    - ring. }
  rewrite Hy.
  destruct num as [| k]; [lia |].
  rewrite seq_S, map_app. simpl (map _ [_]).
  rewrite set_last_snoc. do 2 f_equal.
  unfold step. replace (S k - 1)%nat with k in * by lia.
  simpl (0 + k)%nat. field. exact Hd.
Qed.

End Linspace.

(** ** The visual field as a function of the pose *)

Section VisualField.

Context {Color : Type}.
Implicit Types (self : Arena Color) (rays : list R).

Lemma set_row_at (pre rest : list (R * R)) (w v : R * R) :
  set_row (pre ++ w :: rest) (length pre) v = pre ++ v :: rest.
Proof.
  induction pre as [| u pre IH]; simpl; [reflexivity | now rewrite IH].
Qed.

(** The loop fills row [i] with the intersection of ray [i]. *)
Lemma fill_rows (g : R -> R * R) (d : R * R) rays :
  forall pre : list (R * R),
    fold_left (fun inters ir => set_row inters (fst ir) (g (snd ir)))
              (combine (seq (length pre) (length rays)) rays)
              (pre ++ repeat d (length rays))
    = pre ++ map g rays.
Proof.
  induction rays as [| r rays IH]; intros pre; simpl.
  - reflexivity.
  - rewrite set_row_at.
    specialize (IH (pre ++ [g r])).
    rewrite length_app, Nat.add_1_r, <- !app_assoc in IH.
    exact IH.
Qed.

Lemma update_vf_inters_map self rays :
  update_vf_inters self rays = map (_get_circle_intersection self) rays.
Proof.
  unfold update_vf_inters, enumerate.
  exact (fill_rows (_get_circle_intersection self) (0, 0) rays []).
Qed.

Lemma zip_with_map {A B C D} (f : B -> C -> D) (g : A -> B) (h : A -> C)
      (l : list A) :
  zip_with f (map g l) (map h l) = map (fun x => f (g x) (h x)) l.
Proof.
  unfold zip_with. induction l as [| x l IH]; simpl; [reflexivity |].
  now rewrite IH.
Qed.

Lemma wall_angles_map (inters : list (R * R)) :
  wall_angles inters = map wall_angle inters.
Proof.
  unfold wall_angles.
  rewrite (zip_with_map Np.divide snd fst), !map_map.
  apply (zip_with_map Np.add
           (fun p => Np.arctan (Np.divide (snd p) (fst p)))
           (fun p => Np.pi_if_neg (fst p))).
Qed.

Lemma _get_rays_update_vf_rays self : _get_rays self = update_vf_rays self.
Proof. reflexivity. Qed.

Lemma update_vf_exec self :
  exec update_vf self =
  mkArena (colorfunc self) (visual_res self) (visual_breadth self)
          (_pos self) (_phi self)
          (vf_xy_of self) (vf_angles_of self)
          (colorfunc self (vf_angles_of self)).
Proof.
  unfold exec, update_vf, vf_angles_of, vf_xy_of. simpl.
  rewrite update_vf_inters_map, wall_angles_map.
  reflexivity.
Qed.

Lemma update_vf_outcome self : outcome update_vf self = inr tt.
Proof. reflexivity. Qed.

(** The intersection depends on the position only. *)
Lemma _get_circle_intersection_pos self self' (ray : R) :
  _pos self = _pos self' ->
  _get_circle_intersection self ray = _get_circle_intersection self' ray.
Proof.
  intros H. unfold _get_circle_intersection. now rewrite H.
Qed.

End VisualField.

(** ** Geometry of the ray-circle intersection *)

Section Quadratic.

(** The quadratic of lines 34-38, for a slope [m] and a sign [sgn]. *)
Variables x0 y0 m sgn : R.
Hypothesis inside : x0 ^ 2 + y0 ^ 2 <= 1.

Let A := 1 + m ^ 2.
Let Bhalf := m * y0 - m ^ 2 * x0.
Let C := y0 ^ 2 - 2 * m * y0 * x0 + m ^ 2 * x0 ^ 2 - 1.
Let disc := Bhalf ^ 2 - A * C.
Let solX := (- Bhalf + sgn * sqrt disc) / A.
Let solY := y0 + m * (solX - x0).

Lemma A_pos : 0 < A.
Proof. unfold A. nra. Qed.

(** The discriminant is not negative for a position in the disk. *)
Lemma disc_expand :
  disc = (1 + m ^ 2) * (1 - x0 ^ 2 - y0 ^ 2) + (x0 + m * y0) ^ 2.
Proof. unfold disc, Bhalf, A, C. ring. Qed.

Lemma disc_nonneg : 0 <= disc.
Proof.
  rewrite disc_expand.
  apply Rplus_le_le_0_compat; [| apply pow2_ge_0].
  apply Rmult_le_pos; [| lra].
  pose proof (pow2_ge_0 m). lra.
Qed.

Lemma sqrt_disc_sqr : sqrt disc * sqrt disc = disc.
Proof. apply sqrt_sqrt, disc_nonneg. Qed.

Lemma solX_eq : A * solX = - Bhalf + sgn * sqrt disc.
Proof. unfold solX. field. pose proof A_pos. lra. Qed.

(** The selected root solves the quadratic, so the point is on the wall. *)
Lemma root_on_wall : sgn * sgn = 1 -> solX ^ 2 + solY ^ 2 = 1.
Proof.
  intros Hs.
  pose proof A_pos as HA. pose proof solX_eq as HX.
  pose proof sqrt_disc_sqr as HS.
  assert (Hq : A * (A * solX ^ 2 + 2 * Bhalf * solX + C) = 0).
  { replace (A * (A * solX ^ 2 + 2 * Bhalf * solX + C))
      with ((A * solX) ^ 2 + 2 * Bhalf * (A * solX) + A * C) by ring.
    rewrite HX.
    replace ((- Bhalf + sgn * sqrt disc) ^ 2
             + 2 * Bhalf * (- Bhalf + sgn * sqrt disc) + A * C)
      with ((sgn * sgn) * (sqrt disc * sqrt disc) - (Bhalf ^ 2 - A * C))
      by ring.
    rewrite Hs, HS. unfold disc. ring. }
  apply Rmult_integral in Hq. destruct Hq as [Hq | Hq]; [lra |].
  unfold solY.
  replace (solX ^ 2 + (y0 + m * (solX - x0)) ^ 2)
    with (A * solX ^ 2 + 2 * Bhalf * solX + C + 1)
    by (unfold A, Bhalf, C; ring).
  lra.
Qed.

(** The offset of the root from the agent, scaled by [A]. *)
Lemma offset_eq : A * (solX - x0) = sgn * sqrt disc - (x0 + m * y0).
Proof.
  replace (A * (solX - x0)) with (A * solX - A * x0) by ring.
  rewrite solX_eq. unfold Bhalf, A. ring.
Qed.

Lemma sqrt_disc_dominates :
  - sqrt disc <= x0 + m * y0 <= sqrt disc.
Proof.
  pose proof sqrt_disc_sqr as HS.
  pose proof (sqrt_pos disc) as Hp.
  pose proof disc_expand as HE.
  assert (Hslack : 0 <= (1 + m ^ 2) * (1 - x0 ^ 2 - y0 ^ 2)).
  { apply Rmult_le_pos; [pose proof (pow2_ge_0 m) |]; lra. }
  set (s := sqrt disc) in *. set (w := x0 + m * y0) in *.
  assert (Hw : w * w <= s * s) by (rewrite HS, HE; lra).
  split.
  - destruct (Rle_dec (- s) w) as [| Hn]; [assumption | exfalso; nra].
  - destruct (Rle_dec w s) as [| Hn]; [assumption | exfalso; nra].
Qed.

(** With the sign of [c], the root lies on the side of the agent towards
    which [c] points. *)
Lemma root_forward (c : R) :
  (0 < c -> sgn = 1) -> (c < 0 -> sgn = -1) -> 0 <= (solX - x0) * c.
Proof.
  intros Hpos Hneg.
  pose proof A_pos as HA. pose proof offset_eq as HO.
  pose proof sqrt_disc_dominates as [Hlo Hhi].
  assert (H : 0 <= (A * (solX - x0)) * c).
  { rewrite HO.
    destruct (Rlt_dec 0 c) as [Hc | Hc].
    - rewrite (Hpos Hc). apply Rmult_le_pos; lra.
    - destruct (Rlt_dec c 0) as [Hc' | Hc'].
      + rewrite (Hneg Hc').
        replace ((-1 * sqrt disc - (x0 + m * y0)) * c)
          with ((sqrt disc + (x0 + m * y0)) * (- c)) by ring.
        apply Rmult_le_pos; lra.
      + replace c with 0 by lra. lra. }
  replace (A * (solX - x0) * c) with (A * ((solX - x0) * c)) in H by ring.
  apply Rmult_le_reg_l with A; [exact HA |].
  now rewrite Rmult_0_r.
Qed.

End Quadratic.

Section Intersection.

Context {Color : Type}.
Implicit Types (self : Arena Color) (r : R).

(** The guard of line 31 holds at the poles of the tangent and where the
    tangent exceeds the threshold. *)
Lemma steep_tan r :
  Np.steep (Np.tan r) 1e10 = true <->
  cos r = 0 \/ (cos r <> 0 /\ 1e10 < Rabs (sin r / cos r)).
Proof.
  unfold Np.tan, Np.steep.
  destruct (Req_dec_T (cos r) 0) as [Hc | Hc].
  - destruct (Rlt_dec 0 (sin r)); tauto.
  - destruct (Rlt_dec 1e10 (Rabs (sin r / cos r))) as [Hm | Hm].
    + tauto.
    + split; [discriminate | tauto].
Qed.

Lemma not_steep_tan r :
  Np.steep (Np.tan r) 1e10 = false ->
  cos r <> 0 /\ Np.tan r = Np.Fin (sin r / cos r).
Proof.
  unfold Np.tan, Np.steep.
  destruct (Req_dec_T (cos r) 0) as [Hc | Hc].
  - destruct (Rlt_dec 0 (sin r)); discriminate.
  - now split.
Qed.

(** A numerically vertical ray does not point along the x axis. *)
Lemma steep_sin r : Np.steep (Np.tan r) 1e10 = true -> sin r <> 0.
Proof.
  intros H Hs. apply steep_tan in H. destruct H as [Hc | [Hc Hm]].
  - pose proof (sin2_cos2 r) as E. unfold Rsqr in E.
    rewrite Hs, Hc in E. lra.
  - rewrite Hs in Hm. unfold Rdiv in Hm.
    rewrite Rmult_0_l, Rabs_R0 in Hm. lra.
Qed.

(** The degenerate branch, lines 32-33. *)
Lemma intersection_steep self r :
  Np.steep (Np.tan r) 1e10 = true ->
  _get_circle_intersection self r =
  (fst (_pos self), Np.sign (sin r) * sqrt (1 - fst (_pos self) ^ 2)).
Proof.
  intros H. unfold _get_circle_intersection.
  destruct (_pos self) as [x0 y0]. now rewrite H.
Qed.

(** The general branch, lines 34-39, with the slope [sin r / cos r]. *)
Lemma intersection_general self r :
  Np.steep (Np.tan r) 1e10 = false ->
  _get_circle_intersection self r =
  let x0 := fst (_pos self) in
  let y0 := snd (_pos self) in
  let m := sin r / cos r in
  let A := 1 + m ^ 2 in
  let Bhalf := m * y0 - m ^ 2 * x0 in
  let C := y0 ^ 2 - 2 * m * y0 * x0 + m ^ 2 * x0 ^ 2 - 1 in
  let solX := (- Bhalf + Np.sign (cos r) * sqrt (Bhalf ^ 2 - A * C)) / A in
  (solX, y0 + m * (solX - x0)).
Proof.
  intros H. unfold _get_circle_intersection.
  destruct (not_steep_tan r H) as [_ Ht].
  destruct (_pos self) as [x0 y0]. rewrite H, Ht. reflexivity.
Qed.

Lemma disk_x_bound (p : R * R) : in_disk p -> 0 <= 1 - fst p ^ 2.
Proof. unfold in_disk. pose proof (pow2_ge_0 (snd p)). lra. Qed.

(** Every computed intersection is a point of the wall. *)
Lemma intersection_on_wall self r :
  in_disk (_pos self) -> on_wall (_get_circle_intersection self r).
Proof.
  intros Hin. destruct (Np.steep (Np.tan r) 1e10) eqn:Hst.
  - rewrite (intersection_steep _ _ Hst). unfold on_wall. cbn [fst snd].
    pose proof (sign_sqr _ (steep_sin _ Hst)) as Hs.
    pose proof (sqrt_sqrt _ (disk_x_bound _ Hin)) as Hq.
    set (sg := Np.sign (sin r)) in *.
    set (q := sqrt (1 - fst (_pos self) ^ 2)) in *.
    replace (fst (_pos self) ^ 2 + (sg * q) ^ 2)
      with (fst (_pos self) ^ 2 + (sg * sg) * (q * q)) by ring.
    rewrite Hs, Hq. ring.
  - rewrite (intersection_general _ _ Hst). unfold on_wall. cbv zeta.
    cbn [fst snd].
    destruct (not_steep_tan r Hst) as [Hc _].
    apply (root_on_wall _ _ (sin r / cos r) (Np.sign (cos r)) Hin).
    now apply sign_sqr.
Qed.

(** Outside the degenerate branch the intersection is ahead of the agent. *)
Lemma intersection_forward_general self r :
  in_disk (_pos self) ->
  Np.steep (Np.tan r) 1e10 = false ->
  forward (_pos self) r (_get_circle_intersection self r).
Proof.
  intros Hin Hst. destruct (not_steep_tan r Hst) as [Hc _].
  rewrite (intersection_general _ _ Hst). cbv zeta.
  set (x0 := fst (_pos self)). set (y0 := snd (_pos self)).
  set (m := sin r / cos r).
  set (solX := (- (m * y0 - m ^ 2 * x0) + _) / _).
  assert (Hf : 0 <= (solX - x0) * cos r).
  { apply (root_forward x0 y0 m (Np.sign (cos r)) Hin (cos r));
      unfold Np.sign; intros Hs;
      destruct (Rlt_dec (cos r) 0); try lra;
      destruct (Rlt_dec 0 (cos r)); lra. }
  clearbody solX.
  exists ((solX - x0) * cos r * / (cos r * cos r)).
  cbn [fst snd]. fold x0 y0. split; [| split].
  - apply Rmult_le_pos; [exact Hf |].
    left. apply Rinv_0_lt_compat. nra.
  - clearbody x0. field. exact Hc.
  - unfold m. clearbody x0 y0. field. exact Hc.
Qed.



End Intersection.

(** ** What the methods leave alone *)

Section Frame.

Context {Color : Type}.
Implicit Types (self : Arena Color).

Lemma update_vf_frame self :
  colorfunc (exec update_vf self) = colorfunc self /\
  visual_res (exec update_vf self) = visual_res self /\
  visual_breadth (exec update_vf self) = visual_breadth self /\
  _pos (exec update_vf self) = _pos self /\
  _phi (exec update_vf self) = _phi self.
Proof. repeat split. Qed.

Lemma phi_setter_exec self (new_phi : R) :
  exec (phi_setter new_phi) self =
  exec update_vf (set_phi (Np.fmod new_phi (2 * PI)) self).
Proof. reflexivity. Qed.

Lemma pos_setter_accept self (x y : R) :
  x ^ 2 + y ^ 2 <= 1 ->
  pos_setter (x, y) self = (inr tt, exec update_vf (set_pos (x, y) self)).
Proof.
  intros H. unfold pos_setter.
  destruct (Rlt_dec 1 (x ^ 2 + y ^ 2)); [lra | reflexivity].
Qed.

Lemma pos_setter_reject self (x y : R) :
  1 < x ^ 2 + y ^ 2 ->
  pos_setter (x, y) self = (inl ValueError_outside_unit_circle, self).
Proof.
  intros H. unfold pos_setter.
  destruct (Rlt_dec 1 (x ^ 2 + y ^ 2)); [reflexivity | lra].
Qed.

End Frame.

(** ** The concrete rays and arenas *)

Section Runs.

Lemma two_PI_pos : 0 < 2 * PI.
Proof. pose proof PI_RGT_0. lra. Qed.







End Runs.

(** * The claims *)

(** ** Gentle rays and positions well inside *)

Section Gentle.

(** A gentle ray is far below the guard of line 31. *)
Lemma gentle_not_steep (r : R) :
  gentle r -> Np.steep (Np.tan r) 1e10 = false.
Proof.
  intros [Hc Hm]. destruct (Np.steep (Np.tan r) 1e10) eqn:E; [| reflexivity].
  apply steep_tan in E. destruct E as [E | [_ E]]; [contradiction |].
  unfold tan in Hm. lra.
Qed.


Lemma well_inside_in_disk (p : R * R) : well_inside p -> in_disk p.
Proof. unfold well_inside, in_disk. lra. Qed.

Lemma gentle_0 : gentle 0.
Proof. split; [rewrite cos_0; lra | rewrite tan_0, Rabs_R0; lra]. Qed.

End Gentle.

(** ** C1: the intersection is on the wall, ahead of the agent *)




(** ** C7: the degenerate branch *)

(** C7: when the ray is numerically vertical, |tan r| > 1e10, or exactly
    vertical as at r = π/2, [_get_circle_intersection] returns
    (x0, sign(sin r)·√(1 − x0²)); the slope does not occur in the result. *)
Theorem C7_degenerate_branch {Color} (self : Arena Color) (r : R) :
  cos r = 0 \/ 1e10 < Rabs (tan r) ->
  _get_circle_intersection self r =
  (fst (_pos self), Np.sign (sin r) * sqrt (1 - fst (_pos self) ^ 2)).
Proof.
  intros H. apply intersection_steep, steep_tan.
  destruct (Req_dec_T (cos r) 0) as [Hc | Hc]; [now left | right].
  destruct H as [H | H]; [contradiction |]. now split.
Qed.

Lemma C7_witness :
  _get_circle_intersection narrow (PI / 2) =
  (fst (_pos narrow),
   Np.sign (sin (PI / 2)) * sqrt (1 - fst (_pos narrow) ^ 2)).
Proof.
  apply (C7_degenerate_branch narrow (PI / 2)).
  left. exact cos_PI2.
Defined.

(** ** C10: the quotient of line 51 *)


Section GentleQuotient.

Context {Color : Type}.
Implicit Types (self : Arena Color).


End GentleQuotient.



(** ** C2: the position setter *)


(** ** C3: the ray fan *)

(** C3, as stated, fails for a single ray: with orientation 0, breadth 1
    and resolution 1 the ray is [-1], the left end of the fan, not the
    orientation. *)
Lemma C3_counterexample :
  visual_res one_eyed = 1%nat /\
  _phi one_eyed = 0 /\
  _get_rays one_eyed = [0 + -1] /\
  _get_rays one_eyed <> [_phi one_eyed].
Proof.
  assert (H : _get_rays one_eyed = [0 + -1]).
  { unfold _get_rays.
    change (visual_res one_eyed) with 1%nat.
    change (visual_breadth one_eyed) with 1.
    change (_phi one_eyed) with 0.
    now rewrite linspace_one. }
  repeat split; try exact H.
  rewrite H. change (_phi one_eyed) with 0.
  intros E. injection E as E. lra.
Qed.

(** C3 (amended): for orientation φ, visual_breadth b and
    visual_resolution n, [update_vf] and [_get_rays] generate the same
    n rays; for n ≥ 2 they are exactly the angles φ − b + i·(2b)/(n−1) for
    i = 0..n−1, in this order, from φ − b to φ + b; for n = 1 the single ray
    angle is φ − b. *)
Theorem C3_ray_fan {Color} (self : Arena Color) :
  update_vf_rays self = _get_rays self /\
  length (_get_rays self) = visual_res self /\
  (visual_res self = 1%nat ->
   _get_rays self = [_phi self - visual_breadth self]) /\
  ((2 <= visual_res self)%nat ->
   _get_rays self =
   spec_ray_fan (_phi self) (visual_breadth self) (visual_res self) /\
   nth 0 (_get_rays self) 0 = _phi self - visual_breadth self /\
   nth (visual_res self - 1) (_get_rays self) 0
   = _phi self + visual_breadth self).
Proof.
  unfold _get_rays.
  set (phi := _phi self). set (b := visual_breadth self).
  set (n := visual_res self).
  split; [reflexivity |]. split; [| split].
  - now rewrite length_map, linspace_length.
  - intros Hn. rewrite Hn, linspace_one. cbn [map]. f_equal; lra.
  - intros Hn.
    assert (Hd : INR (n - 1) <> 0) by (apply not_0_INR; lia).
    assert (Hfan :
      map (fun v => phi + v) (Np.linspace (- b) b n) = spec_ray_fan phi b n).
    { rewrite (linspace_even _ _ _ Hn), map_map. unfold spec_ray_fan.
      apply map_ext. intros i. field. exact Hd. }
    rewrite Hfan. unfold spec_ray_fan. split; [reflexivity |].
    pose (f := fun i : nat => phi - b + INR i * (2 * b) / INR (n - 1)).
    fold f.
    assert (Hnth : forall i, (i < n)%nat -> nth i (map f (seq 0 n)) 0 = f i).
    { intros i Hi.
      rewrite (nth_indep _ 0 (f 0%nat)) by now rewrite length_map, length_seq.
      now rewrite map_nth, seq_nth. }
    rewrite !Hnth by lia. unfold f. split.
    + change (INR 0) with 0. field. exact Hd.
    + field. exact Hd.
Qed.

(** ** C4: the orientation setter *)

(** C4: for every real φ the orientation setter returns normally, and the
    stored orientation lies in [0, 2π) and differs from φ by a multiple of
    2π; setting 3π stores π, and setting −π/2 stores 3π/2. *)
Theorem C4_phi_setter {Color} (self : Arena Color) (phi : R) :
  outcome (phi_setter phi) self = inr tt /\
  0 <= phi_getter (exec (phi_setter phi) self) < 2 * PI /\
  (exists k : Z,
      phi_getter (exec (phi_setter phi) self) = phi - IZR k * (2 * PI)) /\
  phi_getter (exec (phi_setter (3 * PI)) self) = PI /\
  phi_getter (exec (phi_setter (- (PI / 2))) self) = 3 * (PI / 2).
Proof.
  pose proof PI_RGT_0 as Hpi. pose proof two_PI_pos as H2pi.
  change (phi_getter (exec (phi_setter phi) self))
    with (Np.fmod phi (2 * PI)).
  change (phi_getter (exec (phi_setter (3 * PI)) self))
    with (Np.fmod (3 * PI) (2 * PI)).
  change (phi_getter (exec (phi_setter (- (PI / 2))) self))
    with (Np.fmod (- (PI / 2)) (2 * PI)).
  split; [reflexivity |]. split; [now apply fmod_range |].
  split; [apply fmod_congruent |]. split.
  - rewrite (fmod_shift _ _ (-1)); lra.
  - rewrite (fmod_shift _ _ 1); lra.
Qed.

(** ** C5: the size of the visual field *)

Section Sizes.

Context {Color : Type}.
Implicit Types (self : Arena Color).

Lemma update_vf_sized self :
  aligned (colorfunc self) -> vf_sized (exec update_vf self).
Proof.
  intros Hcf. rewrite update_vf_exec. unfold vf_sized.
  cbn [vf_xy vf_angles vf_colors visual_res].
  assert (Hxy : length (vf_xy_of self) = visual_res self).
  { unfold vf_xy_of, _get_rays.
    now rewrite !length_map, linspace_length. }
  assert (Han : length (vf_angles_of self) = visual_res self).
  { unfold vf_angles_of. now rewrite length_map, length_rev, length_map. }
  repeat split; [exact Hxy | exact Han | now rewrite Hcf].
Qed.

End Sizes.

(** C5: if the wall colour function returns one colour per angle, then
    after construction, after every orientation set and after every
    accepted position set, [vf_xy], [vf_angles] and [vf_colors] each have
    exactly [visual_res] entries. *)
Theorem C5_visual_field_size {Color} (f : list Np.float -> list Color) :
  aligned f ->
  (forall (b : R) (n : nat),
      vf_sized (__init__ f b n) /\ visual_res (__init__ f b n) = n) /\
  (forall (self : Arena Color) (phi : R),
      colorfunc self = f -> vf_sized (exec (phi_setter phi) self)) /\
  (forall (self : Arena Color) (p : R * R),
      colorfunc self = f ->
      outcome (pos_setter p) self = inr tt ->
      vf_sized (exec (pos_setter p) self)).
Proof.
  intros Hf. split; [| split].
  - intros b n. split; [| reflexivity].
    unfold __init__. now apply update_vf_sized.
  - intros self phi Hc. rewrite phi_setter_exec.
    apply update_vf_sized. cbn [set_phi colorfunc]. now rewrite Hc.
  - intros self [x y] Hc Hok.
    destruct (Rlt_dec 1 (x ^ 2 + y ^ 2)) as [Hgt | Hle].
    + unfold outcome in Hok. rewrite pos_setter_reject in Hok by exact Hgt.
      discriminate.
    + unfold exec. rewrite pos_setter_accept by lra. cbn [snd].
      apply update_vf_sized. cbn [set_pos colorfunc]. now rewrite Hc.
Qed.

Lemma quadrants_aligned : aligned quadrants.
Proof. intros angles. apply length_map. Qed.

Lemma C5_witness :
  (forall (b : R) (n : nat),
      vf_sized (__init__ quadrants b n) /\
      visual_res (__init__ quadrants b n) = n) /\
  (forall (self : Arena nat) (phi : R),
      colorfunc self = quadrants -> vf_sized (exec (phi_setter phi) self)) /\
  (forall (self : Arena nat) (p : R * R),
      colorfunc self = quadrants ->
      outcome (pos_setter p) self = inr tt ->
      vf_sized (exec (pos_setter p) self)).
Proof.
  apply (C5_visual_field_size quadrants).
  exact quadrants_aligned.
Defined.

(** ** C8: setting the same pose twice *)

Section Idempotence.

Context {Color : Type}.
Implicit Types (self : Arena Color).

(** [update_vf] reads the pose and the configuration, not the cache. *)
Lemma update_vf_reads_pose self self' :
  colorfunc self = colorfunc self' ->
  visual_res self = visual_res self' ->
  visual_breadth self = visual_breadth self' ->
  _pos self = _pos self' ->
  _phi self = _phi self' ->
  exec update_vf self = exec update_vf self'.
Proof.
  intros Hc Hr Hb Hp Hphi. rewrite !update_vf_exec.
  assert (Hxy : vf_xy_of self = vf_xy_of self').
  { unfold vf_xy_of, _get_rays. rewrite Hr, Hb, Hphi.
    apply map_ext. intros ray. now apply _get_circle_intersection_pos. }
  assert (Han : vf_angles_of self = vf_angles_of self').
  { unfold vf_angles_of. now rewrite Hxy. }
  now rewrite Hc, Hr, Hb, Hp, Hphi, Hxy, Han.
Qed.

End Idempotence.

(** C8: a second call of a pose setter with the same value ends in the
    state of the first call, so [vf_xy], [vf_angles] and [vf_colors] are
    the same after each call; the second call raises exactly when the
    first one does. *)
Theorem C8_setter_twice {Color} (self : Arena Color) :
  (forall phi : R,
      let once := exec (phi_setter phi) self in
      let twice := exec (phi_setter phi) once in
      twice = once /\
      vf_xy twice = vf_xy once /\
      vf_angles twice = vf_angles once /\
      vf_colors twice = vf_colors once) /\
  (forall p : R * R,
      let once := exec (pos_setter p) self in
      let twice := exec (pos_setter p) once in
      outcome (pos_setter p) once = outcome (pos_setter p) self /\
      twice = once /\
      vf_xy twice = vf_xy once /\
      vf_angles twice = vf_angles once /\
      vf_colors twice = vf_colors once).
Proof.
  split.
  - intros phi once twice.
    assert (E : twice = once).
    { unfold twice, once. rewrite !phi_setter_exec.
      apply update_vf_reads_pose; reflexivity. }
    rewrite E. repeat split.
  - intros [x y] once twice.
    destruct (Rlt_dec 1 (x ^ 2 + y ^ 2)) as [Hgt | Hle].
    + assert (E : once = self).
      { unfold once, exec. now rewrite pos_setter_reject. }
      assert (E' : twice = once).
      { unfold twice. rewrite E. exact E. }
      rewrite E'. rewrite E at 1. repeat split.
    + assert (Hacc : forall s : Arena Color,
                 pos_setter (x, y) s
                 = (inr tt, exec update_vf (set_pos (x, y) s)))
        by (intros s; apply pos_setter_accept; lra).
      assert (E : twice = once).
      { unfold twice, once, exec. rewrite !Hacc. cbn [snd].
        apply update_vf_reads_pose; reflexivity. }
      rewrite E. unfold outcome. rewrite !Hacc. repeat split.
Qed.

(** ** C9: what the pose setters leave alone *)

(** C9: the orientation setter leaves the position, the visual breadth,
    the visual resolution and the colour function as they were; the
    position setter, accepted or not, leaves the orientation, the visual
    breadth, the visual resolution and the colour function as they were. *)
Theorem C9_setter_frame {Color} (self : Arena Color) :
  (forall phi : R,
      let self' := exec (phi_setter phi) self in
      _pos self' = _pos self /\
      visual_breadth self' = visual_breadth self /\
      visual_res self' = visual_res self /\
      colorfunc self' = colorfunc self) /\
  (forall p : R * R,
      let self' := exec (pos_setter p) self in
      _phi self' = _phi self /\
      visual_breadth self' = visual_breadth self /\
      visual_res self' = visual_res self /\
      colorfunc self' = colorfunc self /\
      (outcome (pos_setter p) self = inr tt -> _pos self' = p)).
Proof.
  split.
  - intros phi self'. repeat split.
  - intros [x y] self'. unfold self', exec, outcome.
    destruct (Rlt_dec 1 (x ^ 2 + y ^ 2)) as [Hgt | Hle].
    + rewrite pos_setter_reject by exact Hgt. cbn [fst snd].
      repeat split. discriminate.
    + rewrite pos_setter_accept by lra. cbn [fst snd]. repeat split.
Qed.

(** ** C6: the documented scenario *)

Section Scenario.

Context {Color : Type}.
Implicit Types (self : Arena Color) (r : R).

Lemma not_steep r :
  cos r <> 0 -> Rabs (tan r) <= 1e10 ->
  Np.steep (Np.tan r) 1e10 = false.
Proof.
  intros Hc Hm. destruct (Np.steep (Np.tan r) 1e10) eqn:E; [| reflexivity].
  apply steep_tan in E. destruct E as [E | [_ E]]; [contradiction |].
  unfold tan in Hm. lra.
Qed.

(** Seen from the centre, a ray that is not numerically vertical meets
    the wall at the angle of the ray. *)
Lemma intersection_from_centre self r :
  _pos self = (0, 0) ->
  Np.steep (Np.tan r) 1e10 = false ->
  _get_circle_intersection self r = (cos r, sin r).
Proof.
  intros Hp Hst.
  assert (Hin : in_disk (_pos self)).
  { rewrite Hp. unfold in_disk. cbn [fst snd]. lra. }
  pose proof (intersection_on_wall self r Hin) as Hw.
  pose proof (intersection_forward_general self r Hin Hst) as [t [Ht [Hx Hy]]].
  unfold on_wall in Hw. rewrite Hp in Hx, Hy.
  destruct (_get_circle_intersection self r) as [x y].
  cbn [fst snd] in *.
  assert (Ex : x = t * cos r) by lra.
  assert (Ey : y = t * sin r) by lra.
  pose proof (sin2_cos2 r) as E. unfold Rsqr in E.
  assert (Et : t * t = 1).
  { replace (t * t) with (t * t * (sin r * sin r + cos r * cos r))
      by (rewrite E; ring).
    rewrite Ex, Ey in Hw. lra. }
  assert (H1 : t = 1).
  { assert (H0 : (t - 1) * (t + 1) = 0) by lra.
    apply Rmult_integral in H0. destruct H0; lra. }
  rewrite Ex, Ey, H1. f_equal; ring.
Qed.

(** On the right half of the wall the wall angle is the arctangent. *)
Lemma wall_angle_front r :
  - (PI / 2) < r < PI / 2 -> wall_angle (cos r, sin r) = Np.Fin r.
Proof.
  intros Hr. pose proof (cos_gt_0 r) as Hc.
  unfold wall_angle, Np.divide, Np.pi_if_neg. cbn [fst snd].
  destruct (Req_dec_T (cos r) 0); [lra |].
  destruct (Rlt_dec (cos r) 0); [lra |].
  cbn [Np.arctan Np.add]. f_equal.
  change (sin r / cos r) with (tan r). rewrite atan_tan by exact Hr. ring.
Qed.

Lemma list3_eq {A} (a b c a' b' c' : A) :
  a = a' -> b = b' -> c = c' -> [a; b; c] = [a'; b'; c'].
Proof. now intros -> -> ->. Qed.

End Scenario.

(** C6: the arena built with visual_breadth π/4 and visual_resolution 3
    stands at (0,0) with orientation 0; its rays are −π/4, 0 and π/4; the
    intersections are (cos(−π/4), sin(−π/4)), (1,0) and (cos(π/4), sin(π/4))
    in that order; the stored wall angles are the angles of these points,
    reversed and reduced modulo 2π, that is π/4, 0 and 7π/4; the colours
    are the answer of the colour function to this one sequence, for the
    quadrant markers the markers 0, 0 and 3. *)
Theorem C6_scenario {Color} (f : list Np.float -> list Color) :
  _pos (__init__ f (PI / 4) 3) = (0, 0) /\
  _phi (__init__ f (PI / 4) 3) = 0 /\
  _get_rays (__init__ f (PI / 4) 3) = [- (PI / 4); 0; PI / 4] /\
  vf_xy (__init__ f (PI / 4) 3) =
  [(cos (- (PI / 4)), sin (- (PI / 4))); (1, 0);
   (cos (PI / 4), sin (PI / 4))] /\
  vf_angles (__init__ f (PI / 4) 3) =
  map (fun a => Np.remainder a (2 * PI))
      (rev [Np.Fin (- (PI / 4)); Np.Fin 0; Np.Fin (PI / 4)]) /\
  vf_angles (__init__ f (PI / 4) 3) =
  [Np.Fin (PI / 4); Np.Fin 0; Np.Fin (7 * (PI / 4))] /\
  vf_colors (__init__ f (PI / 4) 3) = f (vf_angles (__init__ f (PI / 4) 3)) /\
  vf_colors scenario = [0; 0; 3]%nat.
Proof.
  pose proof PI_RGT_0 as Hpi.
  assert (Hrays : forall g : list Np.float -> list Color,
             _get_rays (__init__ g (PI / 4) 3) = [- (PI / 4); 0; PI / 4]).
  { intros g. unfold _get_rays.
    change (visual_res (__init__ g (PI / 4) 3)) with 3%nat.
    change (visual_breadth (__init__ g (PI / 4) 3)) with (PI / 4).
    change (_phi (__init__ g (PI / 4) 3)) with 0.
    rewrite linspace_even by lia. cbn [seq map Nat.sub].
    apply list3_eq; simpl INR; lra. }
  assert (Hxy : forall (C : Type) (self : Arena C),
             _pos self = (0, 0) ->
             map (_get_circle_intersection self) [- (PI / 4); 0; PI / 4]
             = [(cos (- (PI / 4)), sin (- (PI / 4))); (cos 0, sin 0);
                (cos (PI / 4), sin (PI / 4))]).
  { intros C self Hp. cbn [map].
    apply list3_eq; apply intersection_from_centre; try exact Hp;
      apply not_steep.
    - rewrite cos_neg, cos_PI4. apply R1_sqrt2_neq_0.
    - rewrite tan_neg, tan_PI4, Rabs_Ropp, Rabs_R1. lra.
    - rewrite cos_0. lra.
    - rewrite tan_0, Rabs_R0. lra.
    - rewrite cos_PI4. apply R1_sqrt2_neq_0.
    - rewrite tan_PI4, Rabs_R1. lra. }
  assert (Hang : map wall_angle
                   [(cos (- (PI / 4)), sin (- (PI / 4))); (cos 0, sin 0);
                    (cos (PI / 4), sin (PI / 4))]
                 = [Np.Fin (- (PI / 4)); Np.Fin 0; Np.Fin (PI / 4)]).
  { cbn [map]. apply list3_eq; apply wall_angle_front; lra. }
  assert (Hrem : map (fun a => Np.remainder a (2 * PI))
                   (rev [Np.Fin (- (PI / 4)); Np.Fin 0; Np.Fin (PI / 4)])
                 = [Np.Fin (PI / 4); Np.Fin 0; Np.Fin (7 * (PI / 4))]).
  { cbn [rev app map Np.remainder].
    apply list3_eq; f_equal.
    - apply fmod_small. lra.
    - apply fmod_small. lra.
    - rewrite (fmod_shift _ _ 1); lra. }
  assert (Hvf : forall (C : Type) (g : list Np.float -> list C),
             vf_xy (__init__ g (PI / 4) 3)
             = [(cos (- (PI / 4)), sin (- (PI / 4))); (cos 0, sin 0);
                (cos (PI / 4), sin (PI / 4))] /\
             vf_angles (__init__ g (PI / 4) 3)
             = map (fun a => Np.remainder a (2 * PI))
                   (rev [Np.Fin (- (PI / 4)); Np.Fin 0; Np.Fin (PI / 4)])).
  { intros C g. unfold __init__. rewrite update_vf_exec.
    cbn [vf_xy vf_angles]. unfold vf_angles_of, vf_xy_of.
    assert (Hr : _get_rays (mkArena g 3 (PI / 4) (0, 0) 0 [] [] [])
                 = [- (PI / 4); 0; PI / 4]).
    { unfold _get_rays. cbn [visual_res visual_breadth _phi].
      rewrite linspace_even by lia. cbn [seq map Nat.sub].
      apply list3_eq; simpl INR; lra. }
    rewrite Hr, (Hxy C) by reflexivity. now rewrite Hang. }
  destruct (Hvf Color f) as [Hf1 Hf2].
  split; [reflexivity |]. split; [reflexivity |].
  split; [apply Hrays |].
  split; [rewrite Hf1, cos_0, sin_0; reflexivity |].
  split; [exact Hf2 |].
  split; [now rewrite Hf2 |].
  split; [reflexivity |].
  change (vf_colors scenario) with (quadrants (vf_angles scenario)).
  unfold scenario. destruct (Hvf nat quadrants) as [_ Hq].
  rewrite Hq, Hrem. unfold quadrants. cbn [map quadrant].
  apply list3_eq.
  - destruct (Rlt_dec (PI / 4) (PI / 2)); [reflexivity | lra].
  - destruct (Rlt_dec 0 (PI / 2)); [reflexivity | lra].
  - destruct (Rlt_dec (7 * (PI / 4)) (PI / 2)); [lra |].
    destruct (Rlt_dec (7 * (PI / 4)) PI); [lra |].
    destruct (Rlt_dec (7 * (PI / 4)) (3 * (PI / 2))); [lra | reflexivity].
Qed.

(** * Further properties of the code *)

From Stdlib Require Import ZArith.

(** ** Wall angles *)

Section WallAngles.

Lemma trig_shift (a : R) (k : Z) :
  cos (a + IZR k * (2 * PI)) = cos a /\ sin (a + IZR k * (2 * PI)) = sin a.
Proof.
  destruct (Z.le_gt_cases 0 k) as [Hk | Hk].
  - rewrite <- (Z2Nat.id k Hk), <- INR_IZR_INZ.
    replace (a + INR (Z.to_nat k) * (2 * PI))
      with (a + 2 * INR (Z.to_nat k) * PI) by ring.
    split; [apply cos_period | apply sin_period].
  - assert (Hn : (0 <= - k)%Z) by lia.
    set (b := a + IZR k * (2 * PI)).
    assert (Ea : a = b + 2 * INR (Z.to_nat (- k)) * PI).
    { unfold b. rewrite INR_IZR_INZ, (Z2Nat.id _ Hn), opp_IZR. ring. }
    clearbody b. rewrite Ea.
    split; symmetry; [apply cos_period | apply sin_period].
Qed.

(** The remainder modulo 2π is the same direction. *)
Lemma fmod_trig (a : R) :
  cos (Np.fmod a (2 * PI)) = cos a /\ sin (Np.fmod a (2 * PI)) = sin a.
Proof.
  unfold Np.fmod.
  replace (a - IZR (Np.floor (a / (2 * PI))) * (2 * PI))
    with (a + IZR (- Np.floor (a / (2 * PI))) * (2 * PI))
    by (rewrite opp_IZR; ring).
  apply trig_shift.
Qed.

(** The arctangent of a quotient points along the denominator's side. *)
Lemma atan_quotient (x y : R) :
  0 < x -> x ^ 2 + y ^ 2 = 1 ->
  cos (atan (y / x)) = x /\ sin (atan (y / x)) = y.
Proof.
  intros Hx Hw.
  set (a := atan (y / x)).
  assert (Hc : 0 < cos a).
  { pose proof (atan_bound (y / x)) as Hb. fold a in Hb.
    apply cos_gt_0; lra. }
  assert (Ht : sin a / cos a = y / x) by (apply (tan_atan (y / x))).
  pose proof (sin2_cos2 a) as E. unfold Rsqr in E.
  set (c := cos a) in *. set (s := sin a) in *.
  assert (Es : s = y * c / x).
  { replace s with (s / c * c) by (field; lra). rewrite Ht. field. lra. }
  assert (Ec : c * c = x * x).
  { assert (H : c * c * (x * x + y * y) = x * x * (s * s + c * c)).
    { rewrite Es. field. lra. }
    rewrite E in H. replace (x * x + y * y) with 1 in H by lra. lra. }
  assert (Ecx : c = x).
  { assert (H0 : (c - x) * (c + x) = 0) by lra.
    apply Rmult_integral in H0. destruct H0; lra. }
  split; [exact Ecx |]. rewrite Es, Ecx. field. lra.
Qed.

(** The wall angle of a point of the wall is its polar angle, taken in
    [[-π/2, 3π/2)]. *)
Lemma wall_angle_polar (p : R * R) :
  on_wall p ->
  exists a : R,
    wall_angle p = Np.Fin a /\ - (PI / 2) <= a < 3 * (PI / 2) /\
    cos a = fst p /\ sin a = snd p.
Proof.
  destruct p as [x y]. unfold on_wall, wall_angle, Np.divide, Np.pi_if_neg.
  cbn [fst snd]. intros Hw. pose proof PI_RGT_0 as Hpi.
  destruct (Req_dec_T x 0) as [Hx0 | Hx0].
  - assert (Hy : y = 1 \/ y = -1).
    { rewrite Hx0 in Hw. assert (H0 : (y - 1) * (y + 1) = 0) by lra.
      apply Rmult_integral in H0. destruct H0; [left | right]; lra. }
    destruct (Rlt_dec x 0); [lra |].
    destruct Hy as [Hy | Hy]; rewrite Hy, Hx0.
    + destruct (Rlt_dec 0 1); [| lra]. exists (PI / 2 + PI * 0).
      split; [reflexivity |].
      replace (PI / 2 + PI * 0) with (PI / 2) by ring.
      rewrite cos_PI2, sin_PI2. repeat split; lra.
    + destruct (Rlt_dec 0 (-1)); [lra |].
      destruct (Rlt_dec (-1) 0); [| lra]. exists (- (PI / 2) + PI * 0).
      split; [reflexivity |].
      replace (- (PI / 2) + PI * 0) with (- (PI / 2)) by ring.
      rewrite cos_neg, sin_neg, cos_PI2, sin_PI2. repeat split; lra.
  - pose proof (atan_bound (y / x)) as Hb.
    destruct (Rlt_dec x 0) as [Hneg | Hpos].
    + exists (atan (y / x) + PI * 1). split; [reflexivity |].
      replace (atan (y / x) + PI * 1) with (atan (y / x) + PI) by ring.
      rewrite neg_cos, neg_sin.
      destruct (atan_quotient (- x) (- y)) as [Hc Hs]; [lra | lra |].
      replace (- y / - x) with (y / x) in Hc, Hs by (field; lra).
      rewrite Hc, Hs. repeat split; lra.
    + exists (atan (y / x) + PI * 0). split; [reflexivity |].
      replace (atan (y / x) + PI * 0) with (atan (y / x)) by ring.
      destruct (atan_quotient x y) as [Hc Hs]; [lra | lra |].
      rewrite Hc, Hs. repeat split; lra.
Qed.

(** After the reduction modulo 2π the angle lies in [[0, 2π)] and still
    points to the point. *)
Lemma stored_angle_polar (p : R * R) :
  on_wall p ->
  exists theta : R,
    Np.remainder (wall_angle p) (2 * PI) = Np.Fin theta /\
    0 <= theta < 2 * PI /\ p = (cos theta, sin theta).
Proof.
  intros Hw. destruct (wall_angle_polar p Hw) as [a [Ea [_ [Hc Hs]]]].
  exists (Np.fmod a (2 * PI)). rewrite Ea. split; [reflexivity |].
  split; [apply fmod_range, two_PI_pos |].
  destruct (fmod_trig a) as [Hc' Hs']. rewrite Hc', Hs', Hc, Hs.
  now destruct p.
Qed.

End WallAngles.

(** ** The invariant of the arena *)

Section Invariant.

Context {Color : Type}.
Implicit Types (self : Arena Color).

Lemma update_vf_current self : vf_current (exec update_vf self).
Proof.
  rewrite update_vf_exec. unfold vf_current.
  cbn [vf_xy vf_angles vf_colors]. repeat split; reflexivity.
Qed.

Lemma vf_xy_of_length self : length (vf_xy_of self) = visual_res self.
Proof.
  unfold vf_xy_of, _get_rays. now rewrite !length_map, linspace_length.
Qed.

Lemma vf_xy_of_on_wall self :
  in_disk (_pos self) -> Forall on_wall (vf_xy_of self).
Proof.
  intros Hin. unfold vf_xy_of. apply Forall_map, Forall_forall.
  intros r _. now apply intersection_on_wall.
Qed.

Lemma nth_map_in {A B} (g : A -> B) (l : list A) (i : nat) (d : A) (e : B) :
  (i < length l)%nat -> nth i (map g l) e = g (nth i l d).
Proof.
  intros Hi. rewrite (nth_indep _ e (g d)) by now rewrite length_map.
  apply map_nth.
Qed.

Lemma reachable_inv (f : list Np.float -> list Color) (b : R) (n : nat) self :
  reachable f b n self ->
  colorfunc self = f /\ visual_res self = n /\ visual_breadth self = b /\
  in_disk (_pos self) /\ 0 <= _phi self < 2 * PI /\ vf_current self.
Proof.
  pose proof two_PI_pos as H2pi.
  induction 1 as [| self [x y] Hr IH | self phi Hr IH].
  - unfold __init__. split; [reflexivity |]. split; [reflexivity |].
    split; [reflexivity |]. split; [| split].
    + change (in_disk (0, 0)). unfold in_disk. cbn [fst snd]. lra.
    + change (0 <= 0 < 2 * PI). lra.
    + apply update_vf_current.
  - destruct (Rlt_dec 1 (x ^ 2 + y ^ 2)) as [Hgt | Hle].
    + unfold exec. rewrite pos_setter_reject by exact Hgt. exact IH.
    + unfold exec. rewrite pos_setter_accept by lra. cbn [snd].
      destruct IH as [Hf [Hn [Hb [_ [Hphi _]]]]].
      split; [exact Hf |]. split; [exact Hn |]. split; [exact Hb |].
      split; [| split].
      * change (in_disk (x, y)). unfold in_disk. cbn [fst snd]. lra.
      * exact Hphi.
      * apply update_vf_current.
  - rewrite phi_setter_exec.
    destruct IH as [Hf [Hn [Hb [Hin _]]]].
    split; [exact Hf |]. split; [exact Hn |]. split; [exact Hb |].
    split; [exact Hin |]. split.
    + change (0 <= Np.fmod phi (2 * PI) < 2 * PI). now apply fmod_range.
    + apply update_vf_current.
Qed.

Lemma narrow_steep_reachable : reachable quadrants 0 1 narrow_steep.
Proof. exact (reach_phi _ _ _ _ steep_ray (reach_init _ _ _)). Qed.

End Invariant.

(** X1: whatever assignments to [pos] and [phi] an arena has seen, accepted
    or rejected, the colour function, breadth and resolution are those of
    the constructor, the position is in the closed unit disk, the
    orientation is in [0, 2π), the stored visual field is the one computed
    from the current pose, and [vf_xy] and [vf_angles] have one entry per
    ray. *)
Theorem X1_reachable_invariant {Color} (f : list Np.float -> list Color)
        (b : R) (n : nat) (self : Arena Color) :
  reachable f b n self ->
  colorfunc self = f /\ visual_res self = n /\ visual_breadth self = b /\
  in_disk (pos_getter self) /\ 0 <= phi_getter self < 2 * PI /\
  vf_current self /\
  length (vf_xy self) = n /\ length (vf_angles self) = n.
Proof.
  intros Hr. destruct (reachable_inv f b n self Hr)
    as [Hf [Hn [Hb [Hin [Hphi Hcur]]]]].
  repeat (split; [assumption |]).
  destruct Hcur as [Hxy [Han _]]. rewrite Hxy, Han. split.
  - now rewrite vf_xy_of_length.
  - unfold vf_angles_of.
    now rewrite length_map, length_rev, length_map, vf_xy_of_length.
Qed.

Lemma X1_witness :
  colorfunc narrow_steep = quadrants /\ visual_res narrow_steep = 1%nat /\
  visual_breadth narrow_steep = 0 /\
  in_disk (pos_getter narrow_steep) /\
  0 <= phi_getter narrow_steep < 2 * PI /\
  vf_current narrow_steep /\
  length (vf_xy narrow_steep) = 1%nat /\
  length (vf_angles narrow_steep) = 1%nat.
Proof.
  apply (X1_reachable_invariant quadrants 0 1 narrow_steep).
  exact narrow_steep_reachable.
Defined.

Section ScenarioRays.

Lemma scenario_reachable : reachable quadrants (PI / 4) 3 scenario.
Proof. apply reach_init. Qed.

Lemma scenario_rays : _get_rays scenario = [- (PI / 4); 0; PI / 4].
Proof.
  unfold _get_rays.
  change (visual_res scenario) with 3%nat.
  change (visual_breadth scenario) with (PI / 4).
  change (_phi scenario) with 0.
  rewrite linspace_even by lia. cbn [seq map Nat.sub].
  apply list3_eq; simpl INR; lra.
Qed.

Lemma scenario_gentle : Forall gentle (_get_rays scenario).
Proof.
  rewrite scenario_rays.
  constructor; [split | constructor; [split | constructor; [split |]]];
    [| | | | | | constructor].
  - rewrite cos_neg, cos_PI4. apply R1_sqrt2_neq_0.
  - rewrite tan_neg, tan_PI4, Rabs_Ropp, Rabs_R1. lra.
  - rewrite cos_0. lra.
  - rewrite tan_0, Rabs_R0. lra.
  - rewrite cos_PI4. apply R1_sqrt2_neq_0.
  - rewrite tan_PI4, Rabs_R1. lra.
Qed.

Lemma scenario_well_inside : well_inside (pos_getter scenario).
Proof.
  change (well_inside (0, 0)). unfold well_inside. cbn [fst snd]. lra.
Qed.

End ScenarioRays.

(** X2: in a reachable state whose position has x0² + y0² ≤ 1/4 and whose
    rays all have |tan r| ≤ 1, each stored wall angle is a finite number θ
    in [0, 2π), and entry i of [vf_angles] is the polar angle of entry
    n−1−i of [vf_xy]: that intersection point is (cos θ, sin θ). *)
Theorem X2_stored_angles {Color} (f : list Np.float -> list Color)
        (b : R) (n : nat) (self : Arena Color) (i : nat) :
  reachable f b n self ->
  well_inside (pos_getter self) -> Forall gentle (_get_rays self) ->
  (i < n)%nat ->
  exists theta : R,
    nth i (vf_angles self) Np.NaN = Np.Fin theta /\
    0 <= theta < 2 * PI /\
    nth (n - 1 - i) (vf_xy self) (0, 0) = (cos theta, sin theta).
Proof.
  intros Hr Hwi _ Hi. destruct (reachable_inv f b n self Hr)
    as [_ [Hn [_ [_ [_ [Hxy [Han _]]]]]]].
  pose proof (well_inside_in_disk _ Hwi) as Hin.
  pose proof (vf_xy_of_length self) as Hlen. rewrite Hn in Hlen.
  pose proof (vf_xy_of_on_wall self Hin) as Hwall.
  rewrite Hxy, Han. unfold vf_angles_of.
  set (l := vf_xy_of self) in *.
  rewrite (nth_map_in _ _ _ Np.NaN)
    by now rewrite length_rev, length_map, Hlen.
  rewrite rev_nth by now rewrite length_map, Hlen.
  rewrite length_map, Hlen.
  rewrite (nth_map_in _ _ _ (0, 0)) by (rewrite Hlen; lia).
  replace (n - S i)%nat with (n - 1 - i)%nat by lia.
  assert (Hp : on_wall (nth (n - 1 - i) l (0, 0))).
  { rewrite Forall_forall in Hwall. apply Hwall, nth_In. lia. }
  destruct (stored_angle_polar _ Hp) as [theta [E [Hrange Hpt]]].
  exists theta. now repeat split.
Qed.

Lemma X2_witness :
  exists theta : R,
    nth 0 (vf_angles scenario) Np.NaN = Np.Fin theta /\
    0 <= theta < 2 * PI /\
    nth (3 - 1 - 0) (vf_xy scenario) (0, 0) = (cos theta, sin theta).
Proof.
  apply (X2_stored_angles quadrants (PI / 4) 3 scenario 0).
  - exact scenario_reachable.
  - exact scenario_well_inside.
  - exact scenario_gentle.
  - lia.
Defined.

(** ** Rays and orientations that differ by full turns *)

(** X3: the intersection depends on the direction of the ray only: rays
    that differ by a whole number of turns of 2π give the same point, so
    the rays need no reduction modulo 2π. *)
Theorem X3_intersection_periodic {Color} (self : Arena Color)
        (r : R) (k : Z) :
  _get_circle_intersection self (r + IZR k * (2 * PI))
  = _get_circle_intersection self r.
Proof.
  destruct (trig_shift r k) as [Hc Hs].
  unfold _get_circle_intersection, Np.tan. now rewrite Hc, Hs.
Qed.

Lemma fmod_turns (v : R) (k : Z) :
  Np.fmod (v + IZR k * (2 * PI)) (2 * PI) = Np.fmod v (2 * PI).
Proof.
  pose proof two_PI_pos as Hd.
  pose proof (fmod_range v (2 * PI) Hd) as Hrange.
  unfold Np.fmod in Hrange |- * at 2.
  set (q := Np.floor (v / (2 * PI))) in *.
  rewrite (fmod_shift _ _ (- q - k)).
  - rewrite minus_IZR, opp_IZR. ring.
  - exact Hd.
  - rewrite minus_IZR, opp_IZR.
    replace (v + IZR k * (2 * PI) + (- IZR q - IZR k) * (2 * PI))
      with (v - IZR q * (2 * PI)) by ring.
    exact Hrange.
Qed.

(** X4: orientations that differ by a whole number of turns put the arena
    in the same state: the same stored orientation and visual field. *)
Theorem X4_phi_setter_turns {Color} (self : Arena Color) (phi : R) (k : Z) :
  exec (phi_setter (phi + IZR k * (2 * PI))) self
  = exec (phi_setter phi) self.
Proof.
  rewrite !phi_setter_exec. now rewrite fmod_turns.
Qed.

(** ** The returned point is the only candidate *)

Section Uniqueness.

(** Along one ray from a point strictly inside the disk there is one
    point of the wall. *)
Lemma forward_unique (o p q : R * R) (r : R) :
  fst o ^ 2 + snd o ^ 2 < 1 ->
  on_wall p -> on_wall q -> forward o r p -> forward o r q -> p = q.
Proof.
  destruct o as [x0 y0], p as [px py], q as [qx qy].
  unfold on_wall, forward. cbn [fst snd].
  intros Hin Hp Hq [t [Ht [Hpx Hpy]]] [u [Hu [Hqx Hqy]]].
  pose proof (sin2_cos2 r) as E. unfold Rsqr in E.
  set (c := cos r) in *. set (s := sin r) in *.
  set (w := x0 * c + y0 * s).
  assert (Ep : px = x0 + t * c) by lra.
  assert (Ep' : py = y0 + t * s) by lra.
  assert (Eq : qx = x0 + u * c) by lra.
  assert (Eq' : qy = y0 + u * s) by lra.
  assert (Gt : t * t + 2 * t * w = 1 - (x0 ^ 2 + y0 ^ 2)).
  { rewrite Ep, Ep' in Hp.
    replace (t * t) with (t * t * (s * s + c * c)) by (rewrite E; ring).
    unfold w. lra. }
  assert (Gu : u * u + 2 * u * w = 1 - (x0 ^ 2 + y0 ^ 2)).
  { rewrite Eq, Eq' in Hq.
    replace (u * u) with (u * u * (s * s + c * c)) by (rewrite E; ring).
    unfold w. lra. }
  assert (Etu : t = u).
  { assert (H0 : (t - u) * (t + u + 2 * w) = 0) by lra.
    apply Rmult_integral in H0. destruct H0 as [H0 | H0]; [lra |].
    exfalso.
    assert (Hprod : t * u = - (1 - (x0 ^ 2 + y0 ^ 2))).
    { replace (t * u) with (t * (t + u + 2 * w) - (t * t + 2 * t * w))
        by ring.
      rewrite H0, Gt. ring. }
    assert (0 <= t * u) by (apply Rmult_le_pos; assumption).
    lra. }
  rewrite Ep, Ep', Eq, Eq', Etu. reflexivity.
Qed.

End Uniqueness.

(** X5: for a position with x0² + y0² ≤ 1/4 and a ray with |tan r| ≤ 1,
    every point of the unit circle that lies ahead on the ray is the point
    the routine returns. *)
Theorem X5_intersection_unique {Color} (self : Arena Color) (r : R)
        (q : R * R) :
  well_inside (_pos self) -> gentle r ->
  on_wall q -> forward (_pos self) r q ->
  q = _get_circle_intersection self r.
Proof.
  intros Hwi Hg Hq Hf.
  pose proof (well_inside_in_disk _ Hwi) as Hd.
  assert (Hin : fst (_pos self) ^ 2 + snd (_pos self) ^ 2 < 1)
    by (unfold well_inside in Hwi; lra).
  apply (forward_unique (_pos self) _ _ r Hin Hq).
  - now apply intersection_on_wall.
  - exact Hf.
  - apply intersection_forward_general; [exact Hd |].
    now apply gentle_not_steep.
Qed.

Lemma X5_witness : (1, 0) = _get_circle_intersection narrow 0.
Proof.
  apply (X5_intersection_unique narrow 0 (1, 0)).
  - change (well_inside (0, 0)). unfold well_inside. cbn [fst snd]. lra.
  - exact gentle_0.
  - unfold on_wall. cbn [fst snd]. lra.
  - exists 1. change (_pos narrow) with (0, 0)%R. cbn [fst snd].
    rewrite cos_0, sin_0. repeat split; lra.
Defined.

(** ** How the setters compose *)

Section Composition.

Context {Color : Type}.
Implicit Types (self : Arena Color).

Lemma pos_setter_exec_reject self (x y : R) :
  1 < x ^ 2 + y ^ 2 -> exec (pos_setter (x, y)) self = self.
Proof. intros H. unfold exec. now rewrite pos_setter_reject. Qed.

Lemma pos_setter_exec_accept self (x y : R) :
  ~ 1 < x ^ 2 + y ^ 2 ->
  exec (pos_setter (x, y)) self = exec update_vf (set_pos (x, y) self).
Proof. intros H. unfold exec at 1. now rewrite pos_setter_accept by lra. Qed.

Lemma pos_setter_outcome self (x y : R) :
  outcome (pos_setter (x, y)) self
  = if Rlt_dec 1 (x ^ 2 + y ^ 2)
    then inl ValueError_outside_unit_circle else inr tt.
Proof.
  unfold outcome. destruct (Rlt_dec 1 (x ^ 2 + y ^ 2)) as [Hgt | Hle].
  - now rewrite pos_setter_reject.
  - now rewrite pos_setter_accept by lra.
Qed.

End Composition.

(** X6: the two pose setters commute: setting the orientation and then
    the position ends in the same state as setting the position and then
    the orientation, whether the position is accepted or rejected. *)
Theorem X6_setters_commute {Color} (self : Arena Color)
        (new_pos : R * R) (new_phi : R) :
  exec (pos_setter new_pos) (exec (phi_setter new_phi) self)
  = exec (phi_setter new_phi) (exec (pos_setter new_pos) self) /\
  outcome (pos_setter new_pos) (exec (phi_setter new_phi) self)
  = outcome (pos_setter new_pos) self.
Proof.
  destruct new_pos as [x y]. rewrite !pos_setter_outcome.
  split; [| reflexivity].
  destruct (Rlt_dec 1 (x ^ 2 + y ^ 2)) as [Hgt | Hle].
  - now rewrite !pos_setter_exec_reject by exact Hgt.
  - rewrite !pos_setter_exec_accept by exact Hle.
    rewrite !phi_setter_exec.
    apply update_vf_reads_pose; reflexivity.
Qed.

(** X7: the last assignment wins: after two assignments to [phi] the
    arena is in the state of the second alone, and after two accepted
    assignments to [pos] likewise; a rejected second position leaves the
    state of the first. *)
Theorem X7_last_assignment_wins {Color} (self : Arena Color) :
  (forall phi1 phi2 : R,
      exec (phi_setter phi2) (exec (phi_setter phi1) self)
      = exec (phi_setter phi2) self) /\
  (forall p1 p2 : R * R,
      exec (pos_setter p2) (exec (pos_setter p1) self)
      = if Rlt_dec 1 (fst p2 ^ 2 + snd p2 ^ 2)
        then exec (pos_setter p1) self
        else exec (pos_setter p2) self).
Proof.
  split.
  - intros phi1 phi2. rewrite !phi_setter_exec.
    apply update_vf_reads_pose; reflexivity.
  - intros [x1 y1] [x2 y2]. cbn [fst snd].
    destruct (Rlt_dec 1 (x2 ^ 2 + y2 ^ 2)) as [Hgt2 | Hle2].
    + now rewrite (pos_setter_exec_reject _ x2 y2) by exact Hgt2.
    + rewrite !(pos_setter_exec_accept _ x2 y2) by exact Hle2.
      destruct (Rlt_dec 1 (x1 ^ 2 + y1 ^ 2)) as [Hgt1 | Hle1].
      * now rewrite pos_setter_exec_reject by exact Hgt1.
      * rewrite pos_setter_exec_accept by exact Hle1.
        apply update_vf_reads_pose; reflexivity.
Qed.

(** ** Reading a pose and writing it back *)

Section RoundTrip.

Context {Color : Type}.
Implicit Types (self : Arena Color).




End RoundTrip.



(** ** The shape of the ray fan *)

Section Fan.

Context {Color : Type}.
Implicit Types (self : Arena Color).

Lemma rays_length self : length (_get_rays self) = visual_res self.
Proof. unfold _get_rays. now rewrite length_map, linspace_length. Qed.

(** Ray [i] of a fan of two or more rays. *)
Lemma rays_nth self (i : nat) :
  (2 <= visual_res self)%nat -> (i < visual_res self)%nat ->
  nth i (_get_rays self) 0 =
  _phi self - visual_breadth self
  + INR i * (2 * visual_breadth self / INR (visual_res self - 1)).
Proof.
  intros Hn Hi. unfold _get_rays.
  rewrite (linspace_even _ _ _ Hn), map_map.
  rewrite (nth_map_in _ _ _ 0%nat) by now rewrite length_seq.
  rewrite seq_nth by exact Hi. cbn [Nat.add].
  assert (Hd : INR (visual_res self - 1) <> 0) by (apply not_0_INR; lia).
  field. exact Hd.
Qed.

Lemma rays_single self :
  visual_res self = 1%nat ->
  _get_rays self = [_phi self - visual_breadth self].
Proof.
  intros Hn. unfold _get_rays. rewrite Hn, linspace_one. reflexivity.
Qed.

End Fan.

(** X9: for a visual breadth b ≥ 0 the rays are in ascending order and
    all lie in [φ − b, φ + b], for every resolution (one ray included). *)
Theorem X9_rays_ordered_in_fan {Color} (self : Arena Color) (i j : nat) :
  0 <= visual_breadth self ->
  (i <= j)%nat -> (j < visual_res self)%nat ->
  _phi self - visual_breadth self <= nth i (_get_rays self) 0 /\
  nth i (_get_rays self) 0 <= nth j (_get_rays self) 0 /\
  nth j (_get_rays self) 0 <= _phi self + visual_breadth self.
Proof.
  intros Hb Hij Hj.
  destruct (le_lt_dec 2 (visual_res self)) as [Hn | Hn].
  - rewrite !rays_nth by lia.
    set (n1 := INR (visual_res self - 1)).
    assert (Hn1 : 0 < n1) by (apply lt_0_INR; lia).
    set (step := 2 * visual_breadth self / n1).
    assert (Hstep : 0 <= step).
    { unfold step. apply Rmult_le_pos; [lra |].
      left. now apply Rinv_0_lt_compat. }
    assert (Hfull : n1 * step = 2 * visual_breadth self).
    { unfold step. field. lra. }
    assert (Hi0 : 0 <= INR i) by apply pos_INR.
    assert (Hle : INR i <= INR j) by now apply le_INR.
    assert (Hjn : INR j <= n1) by (apply le_INR; lia).
    assert (H1 : 0 <= INR i * step) by now apply Rmult_le_pos.
    assert (H2 : INR i * step <= INR j * step)
      by now apply Rmult_le_compat_r.
    assert (H3 : INR j * step <= n1 * step)
      by now apply Rmult_le_compat_r.
    lra.
  - assert (Hn1 : visual_res self = 1%nat) by lia.
    assert (Hi0 : i = 0%nat) by lia. assert (Hj0 : j = 0%nat) by lia.
    rewrite (rays_single _ Hn1), Hi0, Hj0. cbn [nth]. lra.
Qed.

Lemma X9_witness :
  _phi scenario - visual_breadth scenario <= nth 0 (_get_rays scenario) 0 /\
  nth 0 (_get_rays scenario) 0 <= nth 2 (_get_rays scenario) 0 /\
  nth 2 (_get_rays scenario) 0 <= _phi scenario + visual_breadth scenario.
Proof.
  apply (X9_rays_ordered_in_fan scenario 0 2).
  - change (0 <= PI / 4). pose proof PI_RGT_0. lra.
  - lia.
  - change (2 < 3)%nat. lia.
Defined.

(** X10: a fan of two or more rays is symmetric about the orientation:
    rays i and n−1−i lie at equal angles on either side of φ; so for an
    odd resolution n = 2k+1 ≥ 3 the middle ray k points along φ. *)
Theorem X10_fan_symmetric {Color} (self : Arena Color) (i : nat) :
  (2 <= visual_res self)%nat -> (i < visual_res self)%nat ->
  nth i (_get_rays self) 0 + nth (visual_res self - 1 - i) (_get_rays self) 0
  = 2 * _phi self /\
  (visual_res self = (2 * i + 1)%nat -> nth i (_get_rays self) 0 = _phi self).
Proof.
  intros Hn Hi.
  assert (Hsym :
    nth i (_get_rays self) 0
    + nth (visual_res self - 1 - i) (_get_rays self) 0 = 2 * _phi self).
  { rewrite !rays_nth by lia.
    assert (Hd : INR (visual_res self - 1) <> 0) by (apply not_0_INR; lia).
    rewrite (minus_INR (visual_res self - 1) i) by lia.
    field. exact Hd. }
  split; [exact Hsym |].
  intros Hodd.
  replace (visual_res self - 1 - i)%nat with i in Hsym by lia. lra.
Qed.

Lemma X10_witness :
  nth 1 (_get_rays scenario) 0
  + nth (visual_res scenario - 1 - 1) (_get_rays scenario) 0
  = 2 * _phi scenario /\
  (visual_res scenario = (2 * 1 + 1)%nat ->
   nth 1 (_get_rays scenario) 0 = _phi scenario).
Proof.
  apply (X10_fan_symmetric scenario 1).
  - change (2 <= 3)%nat. lia.
  - change (1 < 3)%nat. lia.
Defined.

(** ** Symmetry *)

Lemma sign_opp (x : R) : Np.sign (- x) = - Np.sign x.
Proof.
  unfold Np.sign.
  destruct (Rlt_dec (- x) 0), (Rlt_dec x 0); try lra;
    destruct (Rlt_dec 0 (- x)), (Rlt_dec 0 x); lra.
Qed.

(** X11: the routine is symmetric in the x axis: for the mirrored
    position and the mirrored ray it returns the mirrored point. *)
Theorem X11_intersection_mirror {Color} (self : Arena Color) (r : R) :
  _get_circle_intersection (set_pos (mirror (_pos self)) self) (- r)
  = mirror (_get_circle_intersection self r).
Proof.
  unfold _get_circle_intersection, mirror, Np.tan.
  destruct (_pos self) as [x0 y0]. cbn [set_pos _pos fst snd].
  rewrite cos_neg, sin_neg, sign_opp.
  destruct (Req_dec_T (cos r) 0) as [Hc | Hc].
  - assert (Hs : sin r <> 0).
    { intros Hs. pose proof (sin2_cos2 r) as E. unfold Rsqr in E.
      rewrite Hs, Hc in E. lra. }
    destruct (Rlt_dec 0 (- sin r)), (Rlt_dec 0 (sin r));
      cbn [Np.steep fst snd]; f_equal; ring.
  - set (m := sin r / cos r).
    replace (- sin r / cos r) with (- m) by (unfold m; field; exact Hc).
    cbn [Np.steep Np.value]. rewrite Rabs_Ropp.
    destruct (Rlt_dec 1e10 (Rabs m)).
    + cbn [fst snd]. f_equal. ring.
    + replace (- m * - y0 - (- m) ^ 2 * x0) with (m * y0 - m ^ 2 * x0)
        by ring.
      replace (1 + (- m) ^ 2) with (1 + m ^ 2) by ring.
      replace ((- y0) ^ 2 - 2 * - m * - y0 * x0 + (- m) ^ 2 * x0 ^ 2 - 1)
        with (y0 ^ 2 - 2 * m * y0 * x0 + m ^ 2 * x0 ^ 2 - 1) by ring.
      cbn [fst snd]. f_equal. ring.
Qed.

(** ** The view from the centre *)

Section Centre.

(** An angle of [[0, 2π)] is determined by its cosine and sine. *)
Lemma polar_unique (a b : R) :
  0 <= a < 2 * PI -> 0 <= b < 2 * PI ->
  cos a = cos b -> sin a = sin b -> a = b.
Proof.
  intros Ha Hb Hc Hs. pose proof PI_RGT_0 as Hpi.
  destruct (Rle_dec a PI) as [Ha1 | Ha1], (Rle_dec b PI) as [Hb1 | Hb1].
  - destruct (Rtotal_order a b) as [Hlt | [Heq | Hgt]]; [| exact Heq |].
    + pose proof (cos_decreasing_1 a b). lra.
    + pose proof (cos_decreasing_1 b a). lra.
  - pose proof (sin_ge_0 a). pose proof (sin_lt_0 b). lra.
  - pose proof (sin_ge_0 b). pose proof (sin_lt_0 a). lra.
  - destruct (Rtotal_order a b) as [Hlt | [Heq | Hgt]]; [| exact Heq |].
    + pose proof (cos_increasing_1 a b). lra.
    + pose proof (cos_increasing_1 b a). lra.
Qed.

(** The stored angle of the point at direction [r] is [r] modulo 2π. *)
Lemma stored_angle_of_direction (r : R) :
  Np.remainder (wall_angle (cos r, sin r)) (2 * PI)
  = Np.Fin (Np.fmod r (2 * PI)).
Proof.
  assert (Hw : on_wall (cos r, sin r)).
  { unfold on_wall. cbn [fst snd]. pose proof (sin2_cos2 r) as E.
    unfold Rsqr in E. lra. }
  destruct (stored_angle_polar _ Hw) as [theta [E [Hrange Hpt]]].
  rewrite E. f_equal. injection Hpt as Hc Hs.
  destruct (fmod_trig r) as [Hc' Hs'].
  apply polar_unique; try exact Hrange.
  - apply fmod_range, two_PI_pos.
  - now rewrite Hc'.
  - now rewrite Hs'.
Qed.

End Centre.

(** X12: an agent at the centre sees the wall where it looks: if no ray
    is numerically vertical, the angles stored by [update_vf] are the ray
    angles reduced modulo 2π, in reverse ray order. *)
Theorem X12_centre_angles {Color} (self : Arena Color) :
  _pos self = (0, 0) ->
  Forall (fun r => Np.steep (Np.tan r) 1e10 = false) (_get_rays self) ->
  vf_angles (exec update_vf self)
  = rev (map (fun r => Np.Fin (Np.fmod r (2 * PI))) (_get_rays self)).
Proof.
  intros Hp Hrays. rewrite update_vf_exec. cbn [vf_angles].
  unfold vf_angles_of, vf_xy_of.
  rewrite map_map, map_rev, map_map. f_equal.
  apply map_ext_in. intros r Hr.
  rewrite Forall_forall in Hrays.
  rewrite (intersection_from_centre self r Hp (Hrays r Hr)).
  apply stored_angle_of_direction.
Qed.

Lemma X12_witness :
  vf_angles (exec update_vf narrow)
  = rev (map (fun r => Np.Fin (Np.fmod r (2 * PI))) (_get_rays narrow)).
Proof.
  apply (X12_centre_angles narrow).
  - reflexivity.
  - assert (E : _get_rays narrow = [0 + - 0]).
    { unfold _get_rays.
      change (visual_res narrow) with 1%nat.
      change (visual_breadth narrow) with 0.
      change (_phi narrow) with 0.
      now rewrite linspace_one. }
    rewrite E. constructor; [| constructor].
    replace (0 + - 0) with 0 by lra.
    apply not_steep.
    + rewrite cos_0. lra.
    + rewrite tan_0, Rabs_R0. lra.
Defined.

(** ** An agent on the wall *)

(** X13: an agent standing on the wall and looking outward, along a ray
    with |tan r| ≤ 1 that makes an angle of at most 60 degrees with the
    position vector (x0·cos r + y0·sin r ≥ 1/2), gets its own position as
    the intersection. *)
Theorem X13_on_wall_looking_out {Color} (self : Arena Color) (r : R) :
  on_wall (_pos self) -> gentle r ->
  1 / 2 <= fst (_pos self) * cos r + snd (_pos self) * sin r ->
  _get_circle_intersection self r = _pos self.
Proof.
  intros Hw Hg Hout.
  pose proof (gentle_not_steep r Hg) as Hst.
  assert (Hin : in_disk (_pos self)).
  { unfold in_disk. unfold on_wall in Hw. lra. }
  pose proof (intersection_on_wall self r Hin) as Hp.
  pose proof (intersection_forward_general self r Hin Hst)
    as [t [Ht [Hx Hy]]].
  unfold on_wall in Hw, Hp.
  destruct (_get_circle_intersection self r) as [px py].
  destruct (_pos self) as [x0 y0]. cbn [fst snd] in *.
  pose proof (sin2_cos2 r) as E. unfold Rsqr in E.
  set (c := cos r) in *. set (s := sin r) in *.
  set (w := x0 * c + y0 * s) in *.
  assert (Ex : px = x0 + t * c) by lra.
  assert (Ey : py = y0 + t * s) by lra.
  assert (G : t * (t + 2 * w) = 0).
  { rewrite Ex, Ey in Hp.
    replace (t * (t + 2 * w))
      with (t * t * (s * s + c * c) + 2 * t * w) by (rewrite E; ring).
    unfold w. lra. }
  assert (Ht0 : t = 0).
  { apply Rmult_integral in G. destruct G as [G | G]; [exact G |].
    lra. }
  rewrite Ex, Ey, Ht0. f_equal; ring.
Qed.

Lemma X13_witness :
  _get_circle_intersection (exec (pos_setter (1, 0)) narrow) 0
  = _pos (exec (pos_setter (1, 0)) narrow).
Proof.
  rewrite (pos_setter_exec_accept narrow 1 0) by lra.
  apply (X13_on_wall_looking_out (exec update_vf (set_pos (1, 0) narrow)) 0).
  - change (on_wall (1, 0)). unfold on_wall. cbn [fst snd]. lra.
  - exact gentle_0.
  - change (1 / 2 <= fst (1, 0) * cos 0 + snd (1, 0) * sin 0).
    cbn [fst snd]. rewrite cos_0, sin_0. lra.
Defined.

(** ** What [plot_arena] draws *)

Section Plot.

Context {Color : Type}.
Implicit Types (self : Arena Color).

Lemma sight_lines_of_lines (o : R * R) (pts : list (R * R)) :
  sight_lines (Color := Color)
    (map (fun q => plot_line [fst o; fst q] [snd o; snd q]) pts)
  = map (fun q => ([fst o; fst q], [snd o; snd q])) pts.
Proof.
  unfold sight_lines. induction pts as [| q pts IH]; [reflexivity |].
  cbn [map flat_map app]. now rewrite IH.
Qed.

(** The sight lines drawn are the stored intersections joined to the
    position, whatever [walls] is and however the method ends. *)
Lemma plot_arena_sight_lines self (walls : option Z) :
  sight_lines (fst (plot_arena self walls))
  = map (fun q => ([fst (_pos self); fst q], [snd (_pos self); snd q]))
        (vf_xy self).
Proof.
  pose proof (sight_lines_of_lines (_pos self) (vf_xy self)) as H.
  unfold plot_arena, pos_getter.
  destruct walls as [w |]; [destruct (w <? 0)%Z |]; cbn [fst];
    unfold sight_lines in *; rewrite !flat_map_app, H;
    cbn [flat_map app]; now rewrite ?app_nil_r.
Qed.


End Plot.

(** X14: for an arena in a reachable state, [plot_arena] draws exactly one
    sight line per ray, in ray order: line i joins the agent's position to
    the stored intersection i, which is the intersection computed for ray
    i from the current pose; this holds for every [walls] argument, also
    when the method raises for a negative one. *)
Theorem X14_plot_arena_sight_lines {Color}
        (f : list Np.float -> list Color) (b : R) (n : nat)
        (self : Arena Color) (walls : option Z) :
  reachable f b n self ->
  sight_lines (fst (plot_arena self walls))
  = map (fun q => ([fst (pos_getter self); fst q],
                   [snd (pos_getter self); snd q]))
        (vf_xy self) /\
  vf_xy self = map (_get_circle_intersection self) (_get_rays self) /\
  length (sight_lines (fst (plot_arena self walls))) = n.
Proof.
  intros Hr. destruct (reachable_inv f b n self Hr)
    as [_ [Hn [_ [_ [_ [Hxy _]]]]]].
  rewrite plot_arena_sight_lines. split; [reflexivity |].
  split; [exact Hxy |].
  now rewrite length_map, Hxy, vf_xy_of_length.
Qed.

Lemma X14_witness :
  sight_lines (fst (plot_arena narrow_steep (Some 100%Z)))
  = map (fun q => ([fst (pos_getter narrow_steep); fst q],
                   [snd (pos_getter narrow_steep); snd q]))
        (vf_xy narrow_steep) /\
  vf_xy narrow_steep
  = map (_get_circle_intersection narrow_steep) (_get_rays narrow_steep) /\
  length (sight_lines (fst (plot_arena narrow_steep (Some 100%Z)))) = 1%nat.
Proof.
  apply (X14_plot_arena_sight_lines quadrants 0 1 narrow_steep).
  exact narrow_steep_reachable.
Defined.


